(** * NEAT (NeuroEvolution of Augmenting Topologies): reproduction, crossover
      and rank selection

    A shallow embedding of [neat_impl.hpp] (constructor, [Reproduce],
    [Crossover], [compareGenome]) and of the [RankSelection] policy.

    Conventions of the embedding.
    - [double] is the kernel's IEEE 754 binary64 type ([PrimFloat.float]), so
      NaN, infinities and rounding are those of the C++ program.
    - [size_t] counters that only index vectors are [nat]; where the source
      does [size_t] arithmetic that can wrap (rank selection) the values are
      [Z] and the reduction modulo [2^64] is written out.
    - Every read or write past the end of a vector ([operator[]] of
      [std::vector] and [arma::vec] is unchecked) is the outcome
      [OutOfBounds]; conversions and integer operations the language leaves
      undefined are [Undefined]; loops that are not bounded by their data take
      fuel and yield [OutOfFuel] when it runs out.
    - [arma::randu<double>()] reads the next element of a stream of draws
      [rnd : nat -> float]; the position in the stream is threaded through. *)

From Stdlib Require Import ZArith List Bool Arith Lia Floats Uint63 Sorted.
Import ListNotations.

Set Implicit Arguments.

(** ** Outcomes of a run *)

Inductive outcome (A : Type) : Type :=
| Done (a : A)
| OutOfBounds
| Undefined
| OutOfFuel.

Arguments Done {A} a.
Arguments OutOfBounds {A}.
Arguments Undefined {A}.
Arguments OutOfFuel {A}.

Definition bind {A B : Type} (m : outcome A) (k : A -> outcome B) : outcome B :=
  match m with
  | Done a => k a
  | OutOfBounds => OutOfBounds
  | Undefined => Undefined
  | OutOfFuel => OutOfFuel
  end.

Notation "x <- m ;; k" := (bind m (fun x => k))
  (at level 61, m at next level, right associativity).
Notation "' pat <- m ;; k" := (bind m (fun x => match x with pat => k end))
  (at level 61, pat pattern, m at next level, right associativity).

Definition is_done {A : Type} (m : outcome A) : bool :=
  match m with Done _ => true | _ => false end.

(** Unchecked element access: [v[i]]. *)
Definition vec_get {A : Type} (v : list A) (i : nat) : outcome A :=
  match nth_error v i with
  | Some x => Done x
  | None => OutOfBounds
  end.

(** [v[i] = x]. *)
Fixpoint vec_set {A : Type} (v : list A) (i : nat) (x : A) : outcome (list A) :=
  match v, i with
  | [], _ => OutOfBounds
  | _ :: rest, O => Done (x :: rest)
  | y :: rest, S i' => rest' <- vec_set rest i' x ;; Done (y :: rest')
  end.

(** ** Doubles *)

Module Double.

(** Conversion of a [size_t] to [double] (round to nearest even); the
    kernel's conversion takes 63-bit integers, which covers every count the
    engine can hold. *)
Definition of_size_t (z : Z) : float := PrimFloat.of_uint63 (Uint63.of_Z z).

Definition of_nat (n : nat) : float := of_size_t (Z.of_nat n).

(** [std::round]: nearest integer, halfway cases away from zero; NaN,
    infinities and zeros are returned unchanged. *)
Definition round (x : float) : float :=
  match Prim2SF x with
  | S754_finite s m e =>
      if (0 <=? e)%Z then x
      else
        let d := (2 ^ (- e))%Z in
        let q := (Z.pos m / d)%Z in
        let r := (Z.pos m mod d)%Z in
        let n := if (d <=? 2 * r)%Z then (q + 1)%Z else q in
        let y := of_size_t n in
        if s then (- y)%float else y
  | _ => x
  end.

Definition int_min : Z := (- 2 ^ 31)%Z.
Definition int_max : Z := (2 ^ 31 - 1)%Z.

(** Conversion of a [double] to [int]: truncation toward zero, undefined for
    NaN, infinities and values outside the range of [int]. *)
Definition to_int (x : float) : outcome Z :=
  match Prim2SF x with
  | S754_zero _ => Done 0%Z
  | S754_finite s m e =>
      let a := if (0 <=? e)%Z then (Z.pos m * 2 ^ e)%Z else (Z.pos m / 2 ^ (- e))%Z in
      let v := if s then (- a)%Z else a in
      if ((int_min <=? v) && (v <=? int_max))%Z then Done v else Undefined
  | _ => Undefined
  end.

(** Conversion of a [double] to [size_t], as done when a [double] is used
    as a vector index: truncation toward zero, undefined outside the range
    of [size_t]. *)
Definition to_size_t (x : float) : outcome nat :=
  match Prim2SF x with
  | S754_zero _ => Done 0
  | S754_finite s m e =>
      let a := if (0 <=? e)%Z then (Z.pos m * 2 ^ e)%Z else (Z.pos m / 2 ^ (- e))%Z in
      if s then (if (a =? 0)%Z then Done 0 else Undefined)
      else if (a <? 2 ^ 64)%Z then Done (Z.to_nat a) else Undefined
  | _ => Undefined
  end.

(** Neither NaN nor an infinity. *)
Definition finite (x : float) : bool :=
  match Prim2SF x with
  | S754_zero _ | S754_finite _ _ _ => true
  | _ => false
  end.

(** [arma::accu]: the sum of the elements, added here in index order (the
    library is free to group the additions otherwise; the sums met below are
    exact or NaN, whatever the grouping). *)
Definition accu (v : list float) : float :=
  fold_left PrimFloat.add v 0%float.

End Double.

(** ** Genes and genomes *)

(** Modelled from the spec: ConnectionGene (the class is declared in another
    header): source node, target node, weight, enabled flag and innovation
    number, with the accessor names [Crossover] uses. *)
Record ConnectionGene : Type := mkConnectionGene {
  InnovationID : nat;
  Weight : float;
  Source : nat;
  Target : nat;
  Enabled : bool
}.

Definition set_Enabled (b : bool) (c : ConnectionGene) : ConnectionGene :=
  mkConnectionGene (InnovationID c) (Weight c) (Source c) (Target c) b.

Definition set_Weight (w : float) (c : ConnectionGene) : ConnectionGene :=
  mkConnectionGene (InnovationID c) w (Source c) (Target c) (Enabled c).

(** The parameters every [Genome] constructor call of [neat_impl.hpp] passes
    on. *)
Record GenomeParams : Type := mkGenomeParams {
  gp_inputNodeCount : nat;
  gp_outputNodeCount : nat;
  gp_bias : float;
  gp_weightMutationProb : float;
  gp_weightMutationSize : float;
  gp_biasMutationProb : float;
  gp_biasMutationSize : float;
  gp_nodeAdditionProb : float;
  gp_connAdditionProb : float;
  gp_isAcyclic : bool
}.

(** Modelled from the spec: Genome (the class is declared in another header):
    the connection genes in order, the node depths, the node count
    ([getNodeCount()], the constructor's [nextNodeID]), the fitness and the
    construction parameters. *)
Record Genome : Type := mkGenome {
  connectionGeneList : list ConnectionGene;
  nodeDepths : list nat;
  getNodeCount : nat;
  Fitness : float;
  genomeParams : GenomeParams
}.

(** Modelled from the spec: the Genome constructor [Crossover] calls in
    acyclic mode (defined with the class); it stores the gene list, the node
    depths and [nextNodeID]; the fitness of a new genome is not yet evaluated
    and is held as [0]. *)
Definition Genome_acyclic (genes : list ConnectionGene) (depths : list nat)
    (nextNodeID : nat) (gp : GenomeParams) : Genome :=
  mkGenome genes depths nextNodeID 0%float gp.

(** Modelled from the spec: the Genome constructor [Crossover] calls when
    cycles are allowed (defined with the class); no node depths are given. *)
Definition Genome_cyclic (genes : list ConnectionGene) (nextNodeID : nat)
    (gp : GenomeParams) : Genome :=
  mkGenome genes [] nextNodeID 0%float gp.

Definition innovations (genes : list ConnectionGene) : list nat :=
  map InnovationID genes.

(** ** The engine *)

Section Engine.

Context {TaskType : Type}.

Record NEAT : Type := mkNEAT {
  task : TaskType;
  inputNodeCount : nat;
  outputNodeCount : nat;
  popSize : nat;
  maxGen : nat;
  numSpecies : nat;
  bias : float;
  weightMutationProb : float;
  weightMutationSize : float;
  biasMutationProb : float;
  biasMutationSize : float;
  nodeAdditionProb : float;
  connAdditionProb : float;
  disableProb : float;
  elitismProp : float;
  isAcyclic : bool;
  genomeList : list Genome;
  speciesList : list (list Genome)
}.

(** The constructor: a member initialiser list and an empty body; the two
    vectors are default-constructed. *)
Definition NEAT_new (task : TaskType)
    (inputNodeCount outputNodeCount popSize maxGen numSpecies : nat)
    (bias weightMutationProb weightMutationSize biasMutationProb
     biasMutationSize nodeAdditionProb connAdditionProb disableProb
     elitismProp : float)
    (isAcyclic : bool) : outcome NEAT :=
  Done (mkNEAT task inputNodeCount outputNodeCount popSize maxGen numSpecies
          bias weightMutationProb weightMutationSize biasMutationProb
          biasMutationSize nodeAdditionProb connAdditionProb disableProb
          elitismProp isAcyclic [] []).

Definition paramsOf (neat : NEAT) : GenomeParams :=
  mkGenomeParams (inputNodeCount neat) (outputNodeCount neat) (bias neat)
    (weightMutationProb neat) (weightMutationSize neat)
    (biasMutationProb neat) (biasMutationSize neat)
    (nodeAdditionProb neat) (connAdditionProb neat) (isAcyclic neat).

End Engine.

Arguments NEAT TaskType : clear implicits.

(** ** Crossover *)

(** The objects [Crossover] works on: [gen1] and [gen2] are the caller's
    genomes, passed by reference; the other fields are the locals of the
    function body, and [rngPos] is the position in the stream of draws. *)
Record CrossoverFrame : Type := mkFrame {
  gen1 : Genome;
  gen2 : Genome;
  newConnGeneList : list ConnectionGene;
  lessFitGenome : Genome;
  fr_nodeDepths : list nat;
  nextNodeID : nat;
  rngPos : nat
}.

(** A reference to one of the two parents ([Genome<ActivationFunction>&]). *)
Inductive GenomeRef : Type := ref_gen1 | ref_gen2.

Definition deref (fr : CrossoverFrame) (r : GenomeRef) : Genome :=
  match r with
  | ref_gen1 => gen1 fr
  | ref_gen2 => gen2 fr
  end.

Definition set_newConnGeneList (l : list ConnectionGene) (fr : CrossoverFrame) :=
  mkFrame (gen1 fr) (gen2 fr) l (lessFitGenome fr) (fr_nodeDepths fr)
    (nextNodeID fr) (rngPos fr).

Definition set_lessFitGenome (g : Genome) (fr : CrossoverFrame) :=
  mkFrame (gen1 fr) (gen2 fr) (newConnGeneList fr) g (fr_nodeDepths fr)
    (nextNodeID fr) (rngPos fr).

Definition set_nodeDepths (d : list nat) (fr : CrossoverFrame) :=
  mkFrame (gen1 fr) (gen2 fr) (newConnGeneList fr) (lessFitGenome fr) d
    (nextNodeID fr) (rngPos fr).

Definition set_nextNodeID (n : nat) (fr : CrossoverFrame) :=
  mkFrame (gen1 fr) (gen2 fr) (newConnGeneList fr) (lessFitGenome fr)
    (fr_nodeDepths fr) n (rngPos fr).

Definition set_rngPos (p : nat) (fr : CrossoverFrame) :=
  mkFrame (gen1 fr) (gen2 fr) (newConnGeneList fr) (lessFitGenome fr)
    (fr_nodeDepths fr) (nextNodeID fr) p.

(** The four assignments that make parent [base] the child's base and copy
    parent [less] into [lessFitGenome]. *)
Definition take_base (base less : GenomeRef) (fr : CrossoverFrame) : CrossoverFrame :=
  let fr := set_newConnGeneList (connectionGeneList (deref fr base)) fr in
  let fr := set_nextNodeID (getNodeCount (deref fr base)) fr in
  let fr := set_nodeDepths (nodeDepths (deref fr base)) fr in
  set_lessFitGenome (deref fr less) fr.

Section CrossoverLoops.

Variable disableProb : float.
Variable rnd : nat -> float.

(** The body run at a matching gene: the enabled flag is redrawn when either
    copy is disabled, then the weight is taken from the less fit parent
    with probability one half. *)
Definition inherit_match (lessGene g : ConnectionGene) (pos : nat)
    : ConnectionGene * nat :=
  let '(g, pos) :=
    if negb (Enabled g) || negb (Enabled lessGene)
    then (set_Enabled (negb (rnd pos <? disableProb)%float) g, S pos)
    else (g, pos) in
  if (rnd pos <? 0.5)%float
  then (set_Weight (Weight lessGene) g, S pos)
  else (g, S pos).

(** The inner loop [for (j = k; j < newConnGeneList.size(); j++)]: [cands]
    holds the genes from index [j] on.  [None] when the loop ends without a
    match; otherwise the updated genes, the index of the match (the new
    [k]) and the stream position. *)
Fixpoint match_from (lessGene : ConnectionGene) (cands : list ConnectionGene)
    (j pos : nat) : option (list ConnectionGene * nat * nat) :=
  match cands with
  | [] => None
  | g :: rest =>
      if InnovationID lessGene =? InnovationID g
      then let '(g', pos') := inherit_match lessGene g pos in
           Some (g' :: rest, j, pos')
      else match match_from lessGene rest (S j) pos with
           | Some (rest', j', pos') => Some (g :: rest', j', pos')
           | None => None
           end
  end.

(** The outer loop over the genes of [lessFitGenome] ("Find matching
    genes"). *)
Fixpoint find_matching (less new : list ConnectionGene) (k pos : nat)
    : list ConnectionGene * nat :=
  match less with
  | [] => (new, pos)
  | lessGene :: less' =>
      match match_from lessGene (skipn k new) k pos with
      | Some (cands', j, pos') =>
          find_matching less' (firstn k new ++ cands') j pos'
      | None => find_matching less' new k pos
      end
  end.

(** The loop [while (j < minSize)] of the equal-fitness branch. *)
Fixpoint merge_aligned (fuel : nat) (maxGenes minGenes : list ConnectionGene)
    (i j : nat) (new : list ConnectionGene) (pos : nat)
    : outcome (list ConnectionGene * nat * nat) :=
  match fuel with
  | O => OutOfFuel
  | S fuel' =>
      if j <? length minGenes then
        g1 <- vec_get maxGenes i ;;
        g2 <- vec_get minGenes j ;;
        if InnovationID g2 <? InnovationID g1 then
          if (rnd pos <? 0.5)%float
          then merge_aligned fuel' maxGenes minGenes i (S j) (new ++ [g2]) (S pos)
          else merge_aligned fuel' maxGenes minGenes i j new (S pos)
        else if InnovationID g2 =? InnovationID g1 then
          merge_aligned fuel' maxGenes minGenes (S i) (S j)
            (new ++ [if (rnd pos <? 0.5)%float then g2 else g1]) (S pos)
        else
          if (rnd pos <? 0.5)%float
          then merge_aligned fuel' maxGenes minGenes (S i) j (new ++ [g1]) (S pos)
          else merge_aligned fuel' maxGenes minGenes i j new (S pos)
      else Done (new, i, pos)
  end.

(** The loop [while (i < maxSize)] that follows it. *)
Fixpoint merge_rest (fuel : nat) (maxGenes : list ConnectionGene)
    (i : nat) (new : list ConnectionGene) (pos : nat)
    : outcome (list ConnectionGene * nat) :=
  match fuel with
  | O => OutOfFuel
  | S fuel' =>
      if i <? length maxGenes then
        if (rnd pos <? 0.5)%float
        then g1 <- vec_get maxGenes i ;;
             merge_rest fuel' maxGenes (S i) (new ++ [g1]) (S pos)
        else merge_rest fuel' maxGenes i new (S pos)
      else Done (new, pos)
  end.

End CrossoverLoops.

(** The literal [0.001] of the fitness comparison: the nearest double. *)
Definition fitness_tolerance : float := 0x1.0624dd2f1a9fcp-10%float.

Section Crossover.

Context {TaskType : Type}.
Variable neat : NEAT TaskType.
Variable rnd : nat -> float.

(** [arma::randu<double>()]. *)
Definition randu (fr : CrossoverFrame) : float * CrossoverFrame :=
  (rnd (rngPos fr), set_rngPos (S (rngPos fr)) fr).

(** The frame on entry: the two parents and an empty [newConnGeneList];
    [lessFitGenome], [nodeDepths] and [nextNodeID] are not yet bound. *)
Definition enter (g1 g2 : Genome) (pos : nat) : CrossoverFrame :=
  mkFrame g1 g2 [] g1 [] 0 pos.

Definition fitter_parent_branch (equalFitness : bool) (fr : CrossoverFrame)
    : Genome * CrossoverFrame :=
  let fr := set_lessFitGenome (gen1 fr) fr in
  let fr :=
    if equalFitness then
      let '(r, fr) := randu fr in
      if (r <? 0.5)%float then take_base ref_gen1 ref_gen2 fr
      else take_base ref_gen2 ref_gen1 fr
    else if (Fitness (gen2 fr) <? Fitness (gen1 fr))%float
      then take_base ref_gen1 ref_gen2 fr
      else take_base ref_gen2 ref_gen1 fr in
  let '(new, pos) :=
    find_matching (disableProb neat) rnd
      (connectionGeneList (lessFitGenome fr)) (newConnGeneList fr) 0
      (rngPos fr) in
  let fr := set_rngPos pos (set_newConnGeneList new fr) in
  if isAcyclic neat
  then (Genome_acyclic (newConnGeneList fr) (fr_nodeDepths fr)
          (nextNodeID fr) (paramsOf neat), fr)
  else (Genome_cyclic (newConnGeneList fr) (nextNodeID fr) (paramsOf neat), fr).

Definition gene_merge_branch (fuel : nat) (fr : CrossoverFrame)
    : outcome (Genome * CrossoverFrame) :=
  let gen1size := length (connectionGeneList (gen1 fr)) in
  let gen2size := length (connectionGeneList (gen2 fr)) in
  let maxGenome := if gen2size <? gen1size then ref_gen1 else ref_gen2 in
  let minGenome := if gen1size <? gen2size then ref_gen1 else ref_gen2 in
  '(new, i, pos) <-
    merge_aligned rnd fuel (connectionGeneList (deref fr maxGenome))
      (connectionGeneList (deref fr minGenome)) 0 0 (newConnGeneList fr)
      (rngPos fr) ;;
  '(new, pos) <-
    merge_rest rnd fuel (connectionGeneList (deref fr maxGenome)) i new pos ;;
  let fr := set_rngPos pos (set_newConnGeneList new fr) in
  let fr :=
    set_nextNodeID
      (if getNodeCount (gen2 fr) <? getNodeCount (gen1 fr)
       then getNodeCount (gen1 fr) else getNodeCount (gen2 fr)) fr in
  Done (Genome_cyclic (newConnGeneList fr) (nextNodeID fr) (paramsOf neat), fr).

(** [Crossover(gen1, gen2)]: the child and the frame at the return. *)
Definition Crossover (fuel : nat) (g1 g2 : Genome) (pos : nat)
    : outcome (Genome * CrossoverFrame) :=
  let fr := enter g1 g2 pos in
  let equalFitness :=
    (abs (Fitness (gen1 fr) - Fitness (gen2 fr)) <? fitness_tolerance)%float in
  if negb equalFitness || isAcyclic neat
  then Done (fitter_parent_branch equalFitness fr)
  else gene_merge_branch fuel fr.

End Crossover.

(** ** Rank selection *)

Module RankSelection.

Section Select.

Variable rnd : nat -> float.

(** [double prob = (size - pos) * 2 / (size * (size + 1));] the right-hand
    side is evaluated in [size_t] (unsigned 64-bit, integer division) and
    only then converted to [double]. *)
Definition prob (size pos : Z) : outcome float :=
  let num := (((size - pos) * 2) mod 2 ^ 64)%Z in
  let den := ((size * (size + 1)) mod 2 ^ 64)%Z in
  if (den =? 0)%Z then Undefined
  else Done (Double.of_size_t (num / den)).

(** "Choose first genome." *)
Fixpoint choose_first (fuel : nat) (size : Z) (selection : list float)
    (pos : Z) (rp : nat) : outcome (list float * nat) :=
  match fuel with
  | O => OutOfFuel
  | S fuel' =>
      s0 <- vec_get selection 0 ;;
      if (s0 =? Double.of_size_t size)%float then
        let pos := if (size <=? pos)%Z then 0%Z else pos in
        p <- prob size pos ;;
        selection <-
          (if (rnd rp <? p)%float
           then vec_set selection 0 (Double.of_size_t pos)
           else Done selection) ;;
        choose_first fuel' size selection (pos + 1)%Z (S rp)
      else Done (selection, rp)
  end.

(** "Choose second genome." *)
Fixpoint choose_second (fuel : nat) (size : Z) (selection : list float)
    (pos : Z) (rp : nat) : outcome (list float * nat) :=
  match fuel with
  | O => OutOfFuel
  | S fuel' =>
      s0 <- vec_get selection 0 ;;
      s1 <- vec_get selection 1 ;;
      if (s1 =? Double.of_size_t size)%float && negb (s0 =? s1)%float then
        let pos := if (size <=? pos)%Z then 0%Z else pos in
        p <- prob size pos ;;
        selection <-
          (if (rnd rp <? p)%float
           then vec_set selection 1 (Double.of_size_t pos)
           else Done selection) ;;
        choose_second fuel' size selection (pos + 1)%Z (S rp)
      else Done (selection, rp)
  end.

(** [Select(fitnesses, selection)]: the vector [selection] after the call
    and the position reached in the stream of draws. *)
Definition Select (fuel : nat) (fitnesses selection : list float) (rp : nat)
    : outcome (list float * nat) :=
  let n_elem := Z.of_nat (length fitnesses) in
  selection <- vec_set selection 0 (Double.of_size_t n_elem) ;;
  selection <- vec_set selection 1 (Double.of_size_t n_elem) ;;
  '(selection, rp) <- choose_first fuel n_elem selection 0%Z rp ;;
  choose_second fuel n_elem selection 0%Z rp.

End Select.

End RankSelection.

(** The [SelectionPolicy] template parameter: a type with a static
    [Select(fitnesses, selection)]. *)
Class SelectionPolicy : Type := {
  Select : (nat -> float) -> nat -> list float -> list float -> nat ->
           outcome (list float * nat)
}.

#[export] Instance RankSelection_policy : SelectionPolicy :=
  {| Select := RankSelection.Select |}.

(** ** Reproduction *)

(** [compareGenome]. *)
Definition compareGenome (g1 g2 : Genome) : bool :=
  (Fitness g2 <? Fitness g1)%float.

Section StdSort.

Variable A : Type.
Variable comp : A -> A -> bool.

Fixpoint insert_sorted (x : A) (l : list A) : list A :=
  match l with
  | [] => [x]
  | y :: rest => if comp y x then y :: insert_sorted x rest else x :: l
  end.

(** [std::sort(first, last, comp)] on the vector [v], the iterators given
    as offsets from [v.begin()]: the elements of the range [first, last)
    are put in [comp] order, the others stay where they are. *)
Definition std_sort (first last : nat) (v : list A) : list A :=
  firstn first v
    ++ fold_right insert_sorted [] (firstn (last - first) (skipn first v))
    ++ skipn last v.

End StdSort.

Section Reproduce.

Context {TaskType : Type} {policy : SelectionPolicy}.

(** [Genome::Mutate()] is defined with the [Genome] class, in another header;
    it works on the genome, on the static members of [Genome] (of type
    [Statics]) and on the stream of draws. *)
Variable Statics : Type.
Variable Mutate : Genome -> Statics * nat -> Genome * (Statics * nat).

Variable neat : NEAT TaskType.
Variable rnd : nat -> float.

(** "Find the mean fitnesses."  [Train] builds [speciesList] with
    [numSpecies] entries and [Speciate] keeps that number, so the loops over
    [i < numSpecies] visit the entries of [speciesList] in order. *)
Definition meanFitness (species : list Genome) : float :=
  (fold_left (fun acc g => acc + Fitness g) species 0
     / Double.of_nat (length species))%float.

Definition meanFitnesses : list float := map meanFitness (speciesList neat).

Definition totalMeanFitness : float := Double.accu meanFitnesses.

(** "Allot the sizes of the species." *)
Definition allot (meanFitness total : float) : float :=
  Double.round (meanFitness / total * Double.of_nat (popSize neat))%float.

Definition allotted : list float :=
  map (fun m => allot m totalMeanFitness) meanFitnesses.

(** [while (delta > 0) { speciesSize[i++]++; delta--; }] *)
Fixpoint fill_deficit (fuel : nat) (speciesSize : list float) (i : nat)
    (delta : Z) : outcome (list float) :=
  match fuel with
  | O => OutOfFuel
  | S fuel' =>
      if (0 <? delta)%Z then
        x <- vec_get speciesSize i ;;
        speciesSize <- vec_set speciesSize i (x + 1)%float ;;
        fill_deficit fuel' speciesSize (S i) (delta - 1)%Z
      else Done speciesSize
  end.

(** [while (delta < 0) { speciesSize[i++]--; delta--; }]; decrementing an
    [int] that holds [INT_MIN] is undefined. *)
Fixpoint remove_excess (fuel : nat) (speciesSize : list float) (i : nat)
    (delta : Z) : outcome (list float) :=
  match fuel with
  | O => OutOfFuel
  | S fuel' =>
      if (delta <? 0)%Z then
        x <- vec_get speciesSize i ;;
        speciesSize <- vec_set speciesSize i (x - 1)%float ;;
        if (delta - 1 <? Double.int_min)%Z then Undefined
        else remove_excess fuel' speciesSize (S i) (delta - 1)%Z
      else Done speciesSize
  end.

(** [int delta = popSize - accu(speciesSize);] and the two branches that
    follow. *)
Definition reconcile (fuel : nat) (speciesSize : list float)
    : outcome (list float) :=
  delta <- Double.to_int (Double.of_nat (popSize neat) - Double.accu speciesSize)%float ;;
  if (0 <? delta)%Z then fill_deficit fuel speciesSize 0 delta
  else if (delta <? 0)%Z then remove_excess fuel speciesSize 0 delta
  else Done speciesSize.

(** The sizes of the species of the next generation. *)
Definition speciesSizes (fuel : nat) : outcome (list float) :=
  reconcile fuel allotted.

(** "Find the number of elite members in each species." *)
Definition eliteCount (size : float) : float :=
  let e := Double.round (elitismProp neat * size)%float in
  if (e =? 0)%float then 1%float else e.

(** [for (j = 0; j < numElite[i]; j++) genomeList.push_back(speciesList[i][j]);]
    [members] holds the members from index [j] on. *)
Fixpoint copy_elites (numElite : float) (j : nat) (members : list Genome)
    (genomeList : list Genome) : outcome (list Genome) :=
  if (Double.of_nat j <? numElite)%float then
    match members with
    | [] => OutOfBounds
    | g :: rest => copy_elites numElite (S j) rest (genomeList ++ [g])
    end
  else Done genomeList.

(** One turn of the loop that fills the rest of the quota: select, cross
    over, push the child and mutate it in place (the new last element of
    [genomeList] is the mutated child). *)
Definition breed (fuel : nat) (species : list Genome) (fitnesses : list float)
    (genomeList : list Genome) (st : Statics * nat)
    : outcome (list Genome * (Statics * nat)) :=
  let selection := [0%float; 0%float] in
  '(selection, rp) <- Select rnd fuel fitnesses selection (snd st) ;;
  s0 <- vec_get selection 0 ;;
  s2 <- vec_get selection 2 ;;
  i0 <- Double.to_size_t s0 ;;
  i2 <- Double.to_size_t s2 ;;
  parent1 <- vec_get species i0 ;;
  parent2 <- vec_get species i2 ;;
  '(child, fr) <- Crossover neat rnd fuel parent1 parent2 rp ;;
  let '(mutated, st) := Mutate child (fst st, rngPos fr) in
  Done (genomeList ++ [mutated], st).

(** [while (genomeList.size() - currentSize < speciesSize[i])]. *)
Fixpoint fill_quota (fuel : nat) (species : list Genome)
    (fitnesses : list float) (speciesSize : float) (currentSize : nat)
    (genomeList : list Genome) (st : Statics * nat)
    : outcome (list Genome * (Statics * nat)) :=
  match fuel with
  | O => OutOfFuel
  | S fuel' =>
      if (Double.of_nat (length genomeList - currentSize) <? speciesSize)%float
      then
        '(genomeList, st) <- breed fuel' species fitnesses genomeList st ;;
        fill_quota fuel' species fitnesses speciesSize currentSize genomeList st
      else Done (genomeList, st)
  end.

(** The body of the loop "Crossover and add the new genomes" for one
    species.  The call of [std::sort] passes [begin()] twice. *)
Definition reproduce_species (fuel : nat) (species : list Genome)
    (speciesSize numElite : float) (genomeList : list Genome)
    (st : Statics * nat) : outcome (list Genome * (Statics * nat)) :=
  let currentSize := length genomeList in
  let species := std_sort compareGenome 0 0 species in
  genomeList <- copy_elites numElite 0 species genomeList ;;
  let fitnesses := map Fitness species in
  fill_quota fuel species fitnesses speciesSize currentSize genomeList st.

Fixpoint reproduce_all (fuel : nat) (species : list (list Genome))
    (speciesSize numElite : list float) (genomeList : list Genome)
    (st : Statics * nat) : outcome (list Genome * (Statics * nat)) :=
  match species, speciesSize, numElite with
  | sp :: species', size :: sizes', elite :: elites' =>
      '(genomeList, st) <- reproduce_species fuel sp size elite genomeList st ;;
      reproduce_all fuel species' sizes' elites' genomeList st
  | _, _, _ => Done (genomeList, st)
  end.

(** [Reproduce()]: the new [genomeList]. *)
Definition Reproduce (fuel : nat) (st : Statics * nat)
    : outcome (list Genome * (Statics * nat)) :=
  speciesSize <- speciesSizes fuel ;;
  let numElite := map eliteCount speciesSize in
  reproduce_all fuel (speciesList neat) speciesSize numElite [] st.

End Reproduce.

(** ** Genome construction and mutation *)


Definition set_Fitness (f : float) (g : Genome) : Genome :=
  mkGenome (connectionGeneList g) (nodeDepths g) (getNodeCount g) f (genomeParams g).


(** Modelled from the spec: the edges of an initial genome (the constructor is
    defined with the class, in another header): "one gene per initial edge", each
    "assigning fresh innovation IDs from the ledger"; [weight] gives the
    initial weight of the edge that takes a given ID. *)
Fixpoint initial_edges (weight : nat -> float) (nextInnovID : nat)
    (edges : list (nat * nat)) : list ConnectionGene :=
  match edges with
  | [] => []
  | (s, t) :: rest =>
      mkConnectionGene nextInnovID (weight nextInnovID) s t true
        :: initial_edges weight (S nextInnovID) rest
  end.












(** ** Properties of genomes *)

(** The genes are in strictly ascending order of innovation ID. *)
Definition ascending (genes : list ConnectionGene) : Prop :=
  StronglySorted lt (innovations genes).

(** Every gene joins two nodes of the genome. *)
Definition in_range (nodeCount : nat) (c : ConnectionGene) : Prop :=
  Source c < nodeCount /\ Target c < nodeCount.

Definition genes_in_range (g : Genome) : Prop :=
  Forall (in_range (getNodeCount g)) (connectionGeneList g).

(** The two ends of every gene, in order. *)
Definition endpoints (genes : list ConnectionGene) : list (nat * nat) :=
  map (fun c => (Source c, Target c)) genes.

(** What the crossover proofs keep of a gene: its innovation ID and its two
    ends. *)
Definition skeleton (genes : list ConnectionGene) : list (nat * (nat * nat)) :=
  map (fun c => (InnovationID c, (Source c, Target c))) genes.

(** Every gene of [new] has a smaller innovation ID than every gene of
    [rest]. *)
Definition below (new rest : list ConnectionGene) : Prop :=
  forall a b, In a new -> In b rest -> InnovationID a < InnovationID b.

(** What holds each time the loops of the gene-merge branch test their
    condition: the genes pushed so far are in ascending order and precede
    the genes not yet read. *)
Definition merged (maxGenes minGenes : list ConnectionGene) (i j : nat)
    (new : list ConnectionGene) : Prop :=
  ascending new /\ below new (skipn i maxGenes) /\ below new (skipn j minGenes).





(** ** Sample data *)

Module Ex.

Definition params : GenomeParams := mkGenomeParams 2 1 1 0 0 0 0 0 0 false.

(** An engine for two inputs and one output, [disableProb = 0.75],
    [elitismProp = 0.5], cycles allowed. *)
Definition engine (popSize : nat) (species : list (list Genome)) : NEAT unit :=
  mkNEAT tt 2 1 popSize 3 (length species) 1 0 0 0 0 0 0 0.75 0.5 false []
    species.

(** Draws that alternate between 0.25 and 0.75. *)
Definition draws (n : nat) : float :=
  if Nat.even n then 0.25%float else 0.75%float.

Definition narrow : Genome :=
  mkGenome [mkConnectionGene 0 1 0 2 true; mkConnectionGene 1 2 1 2 false;
            mkConnectionGene 4 3 0 3 true] [] 4 5 params.

Definition wide : Genome :=
  mkGenome [mkConnectionGene 0 10 0 2 true; mkConnectionGene 1 20 1 2 true;
            mkConnectionGene 2 30 1 4 true; mkConnectionGene 3 7 4 2 true]
    [] 5 1 params.

Definition twin : Genome :=
  mkGenome [mkConnectionGene 0 1 0 2 true; mkConnectionGene 2 2 1 2 false;
            mkConnectionGene 3 3 0 3 true] [] 4 1 params.

(** The minimal genome for two inputs and one output. *)
Definition minimal : Genome :=
  mkGenome (initial_edges (fun _ => 1%float) 0 [(0, 2); (1, 2)]) [] 3 0
    (paramsOf (engine 10 [])).

(** A member with the given fitness. *)
Definition member (f : float) : Genome := set_Fitness f minimal.

End Ex.

(** ** The best genome of the last generation *)

(** [DBL_MAX], the largest finite double. *)
Definition DBL_MAX : float := 0x1.fffffffffffffp+1023%float.

(** [v[i]] for an index held in a [size_t]. *)
Definition vec_get_at {A : Type} (v : list A) (i : Z) : outcome A :=
  if ((0 <=? i) && (i <? Z.of_nat (length v)))%Z
  then vec_get v (Z.to_nat i)
  else OutOfBounds.

(** The loop "Find best genome" of [Train], with [n] turns left at index
    [i]: [maxIdx] and [max] after the last turn. *)
Fixpoint find_best (n i : nat) (genomeList : list Genome) (maxIdx : Z)
    (max : float) : outcome (Z * float) :=
  match n with
  | O => Done (maxIdx, max)
  | S n' =>
      g <- vec_get genomeList i ;;
      if (max <? Fitness g)%float
      then find_best n' (S i) genomeList (Z.of_nat i) (Fitness g)
      else find_best n' (S i) genomeList maxIdx max
  end.

(** The end of [Train]: [size_t maxIdx = -1; double max = -DBL_MAX;], the
    loop over [i < popSize] and [return genomeList[maxIdx];]. *)
Definition best_genome {TaskType : Type} (neat : NEAT TaskType) : outcome Genome :=
  '(maxIdx, _) <-
    find_best (popSize neat) 0 (genomeList neat) (2 ^ 64 - 1)%Z (- DBL_MAX)%float ;;
  vec_get_at (genomeList neat) maxIdx.

(** ** Speciation *)

Definition set_speciesList {TaskType : Type} (species : list (list Genome))
    (neat : NEAT TaskType) : NEAT TaskType :=
  mkNEAT (task neat) (inputNodeCount neat) (outputNodeCount neat) (popSize neat)
    (maxGen neat) (numSpecies neat) (bias neat) (weightMutationProb neat)
    (weightMutationSize neat) (biasMutationProb neat) (biasMutationSize neat)
    (nodeAdditionProb neat) (connAdditionProb neat) (disableProb neat)
    (elitismProp neat) (isAcyclic neat) (genomeList neat) species.

(** [arma::mat data(rows, cols, arma::fill::zeros)], held as the list of its
    columns. *)
Definition zeros (rows cols : nat) : list (list float) :=
  repeat (repeat 0%float rows) cols.

(** [data(row, col) = w]; an index outside the matrix ends the run (the
    checked access throws, the unchecked one writes past the matrix). *)
Definition mat_set (data : list (list float)) (row col : nat) (w : float)
    : outcome (list (list float)) :=
  column <- vec_get data col ;;
  column <- vec_set column row w ;;
  vec_set data col column.

(** The inner loop of "Translate the genome into points in space": the genes
    of genome [i]. *)
Fixpoint plot_genes (genes : list ConnectionGene) (i : nat)
    (data : list (list float)) : outcome (list (list float)) :=
  match genes with
  | [] => Done data
  | c :: rest =>
      data <- mat_set data (InnovationID c) i (Weight c) ;;
      plot_genes rest i data
  end.

(** The outer loop, over the genomes from index [i] on. *)
Fixpoint plot_genomes (genomes : list Genome) (i : nat)
    (data : list (list float)) : outcome (list (list float)) :=
  match genomes with
  | [] => Done data
  | g :: rest =>
      data <- plot_genes (connectionGeneList g) i data ;;
      plot_genomes rest (S i) data
  end.

(** [for (i = 0; i < numSpecies; i++) speciesList[i].clear();] with [n] turns
    left. *)
Fixpoint clear_species (n i : nat) (speciesList : list (list Genome))
    : outcome (list (list Genome)) :=
  match n with
  | O => Done speciesList
  | S n' =>
      speciesList <- vec_set speciesList i [] ;;
      clear_species n' (S i) speciesList
  end.

(** [for (i = 0; i < assignments.n_elem; i++)
      speciesList[assignments[i]].push_back(genomeList[i]);]
    [assignments] holds the elements from index [i] on. *)
Fixpoint assign_species (assignments : list nat) (i : nat)
    (genomeList : list Genome) (speciesList : list (list Genome))
    : outcome (list (list Genome)) :=
  match assignments with
  | [] => Done speciesList
  | a :: rest =>
      g <- vec_get genomeList i ;;
      species <- vec_get speciesList a ;;
      speciesList <- vec_set speciesList a (species ++ [g]) ;;
      assign_species rest (S i) genomeList speciesList
  end.

Section Speciate.

Context {TaskType : Type}.

(** [kmeans::KMeans<...>::Cluster] is library code: from the data, the number
    of clusters, whether the centroids given are an initial guess, and those
    centroids, it yields the assignments and the new centroids. *)
Variable Centroids : Type.
Variable Cluster :
  list (list float) -> nat -> bool -> Centroids -> list nat * Centroids.

(** The matrix [Speciate] hands to the clustering; [nextInnovID] is the
    static counter of [Genome]. *)
Definition speciate_data (neat : NEAT TaskType) (nextInnovID : nat)
    : outcome (list (list float)) :=
  plot_genomes (genomeList neat) 0 (zeros nextInnovID (popSize neat)).

(** [Speciate(init)]: the engine with its new [speciesList], and the
    centroids. *)
Definition Speciate (neat : NEAT TaskType) (nextInnovID : nat) (init : bool)
    (centroids : Centroids) : outcome (NEAT TaskType * Centroids) :=
  data <- speciate_data neat nextInnovID ;;
  let '(assignments, centroids) :=
    Cluster data (numSpecies neat) (negb init) centroids in
  speciesList <- clear_species (numSpecies neat) 0 (speciesList neat) ;;
  speciesList <- assign_species assignments 0 (genomeList neat) speciesList ;;
  Done (set_speciesList speciesList neat, centroids).

End Speciate.

(** The genomes that the assignments send to species [a], in the order of the
    population. *)
Fixpoint members_of (a : nat) (assignments : list nat) (genomes : list Genome)
    : list Genome :=
  match assignments, genomes with
  | x :: assignments', g :: genomes' =>
      if x =? a then g :: members_of a assignments' genomes'
      else members_of a assignments' genomes'
  | _, _ => []
  end.

(** ** More sample data *)

Module Ex2.

(** An engine holding the given population, in one species slot per list of
    [species]. *)
Definition populated (genomes : list Genome) (species : list (list Genome))
    : NEAT unit :=
  mkNEAT tt 2 1 (length genomes) 3 (length species) 1 0 0 0 0 0 0 0.75 0.5
    false genomes species.

(** A clustering that sends genome [i] to species [i mod k]. *)
Definition round_robin (data : list (list float)) (k : nat) (guess : bool)
    (centroids : unit) : list nat * unit :=
  (map (fun i => i mod k) (seq 0 (length data)), tt).

End Ex2.

(** ** What a child gene keeps of its base *)

(** The relation between a gene [g] of the base parent and the gene [g'] at
    the same place in the child of the fitter-parent branch, [less] being the
    genes of the other parent: same innovation ID and ends; the weight is
    that of [g] or of a gene of [less] with the same ID; the enabled flag
    differs only if a gene of [less] has the same ID and one of the two
    copies is disabled. *)
Definition inherited (less : list ConnectionGene) (g g' : ConnectionGene) : Prop :=
  InnovationID g' = InnovationID g /\ Source g' = Source g /\
  Target g' = Target g /\
  (Weight g' = Weight g \/
   exists l, In l less /\ InnovationID l = InnovationID g /\ Weight g' = Weight l) /\
  (Enabled g' = Enabled g \/
   exists l, In l less /\ InnovationID l = InnovationID g /\
             (Enabled g = false \/ Enabled l = false)).

(** A matrix of [rows] rows and [cols] columns. *)
Definition shaped (rows cols : nat) (data : list (list float)) : Prop :=
  length data = cols /\ Forall (fun column => length column = rows) data.

(** * The Acrobat environment *)

Module Acrobat.

(** [std::max(a, b)]: [(a < b) ? b : a]. *)
Definition std_max (a b : float) : float := if (a <? b)%float then b else a.

(** [std::min(a, b)]: [(b < a) ? b : a]. *)
Definition std_min (a b : float) : float := if (b <? a)%float then b else a.

(** The angular velocity that [Sample] stores in the next state:
    [std::min(std::max(velocity, -maxVel), maxVel)]. *)
Definition bounded_velocity (velocity maxVel : float) : float :=
  std_min (std_max velocity (- maxVel)%float) maxVel.

End Acrobat.

(** * Facts about doubles *)

Lemma shr_1_nonneg (mrs : shr_record) :
  (0 <= shr_m mrs)%Z -> (0 <= shr_m (shr_1 mrs))%Z.
Proof.
  destruct mrs as [m r s]; simpl.
  destruct m as [|p|p]; simpl; try lia.
  - destruct p; simpl; lia.
Qed.

Lemma iter_pos_shr_1_nonneg (p : positive) (mrs : shr_record) :
  (0 <= shr_m mrs)%Z -> (0 <= shr_m (iter_pos shr_1 p mrs))%Z.
Proof.
  revert mrs; induction p as [p IH|p IH|]; intros mrs H; simpl.
  - apply IH. apply IH. apply shr_1_nonneg. exact H.
  - apply IH. apply IH. exact H.
  - apply shr_1_nonneg. exact H.
Qed.

Lemma shr_fexp_nonneg (m e : Z) (l : location) :
  (0 <= m)%Z -> (0 <= shr_m (fst (shr_fexp prec emax m e l)))%Z.
Proof.
  intros H. unfold shr_fexp, shr.
  assert (H0 : (0 <= shr_m (shr_record_of_loc m l))%Z).
  { destruct l as [|[ | | ]]; simpl; exact H. }
  destruct (fexp prec emax (Zdigits2 m + e) - e)%Z; simpl; try exact H0.
  apply iter_pos_shr_1_nonneg. exact H0.
Qed.

Lemma round_nearest_even_nonneg (m : Z) (l : location) :
  (0 <= m)%Z -> (0 <= round_nearest_even m l)%Z.
Proof.
  intros H. destruct l as [|[ | | ]]; simpl; try lia.
  destruct (Z.even m); lia.
Qed.

Lemma binary_round_aux_not_nan (sx : bool) (mx ex : Z) (lx : location) :
  (0 <= mx)%Z -> binary_round_aux prec emax sx mx ex lx <> S754_nan.
Proof.
  intros H. unfold binary_round_aux.
  pose proof (shr_fexp_nonneg ex lx H) as H1.
  destruct (shr_fexp prec emax mx ex lx) as [mrs' e'] eqn:E1. simpl in H1.
  pose proof (round_nearest_even_nonneg (loc_of_shr_record mrs') H1) as H2.
  pose proof (shr_fexp_nonneg e' loc_Exact H2) as H3.
  destruct (shr_fexp prec emax _ e' loc_Exact) as [mrs'' e''] eqn:E2.
  simpl in H3.
  destruct (shr_m mrs'') as [|p|p]; try discriminate; try lia.
  destruct (e'' <=? emax - prec)%Z; discriminate.
Qed.

Lemma binary_normalize_not_nan (m e : Z) (szero : bool) :
  binary_normalize prec emax m e szero <> S754_nan.
Proof.
  unfold binary_normalize, binary_round.
  destruct m as [|p|p]; try discriminate.
  - destruct (shl_align p e _) as [mz ez]. apply binary_round_aux_not_nan. lia.
  - destruct (shl_align p e _) as [mz ez]. apply binary_round_aux_not_nan. lia.
Qed.

Lemma of_size_t_not_nan (z : Z) : Prim2SF (Double.of_size_t z) <> S754_nan.
Proof.
  unfold Double.of_size_t. rewrite of_uint63_spec.
  apply binary_normalize_not_nan.
Qed.

Lemma SFeqb_refl (x : spec_float) : x <> S754_nan -> SFeqb x x = true.
Proof.
  intros H. unfold SFeqb, SFcompare.
  destruct x as [s|s| |s m e]; try reflexivity.
  - destruct s; reflexivity.
  - contradiction.
  - rewrite Z.compare_refl.
    assert (Hm : Pos.compare_cont Eq m m = Eq) by apply Pos.compare_cont_refl.
    rewrite Hm. destruct s; reflexivity.
Qed.

Lemma of_size_t_eqb_refl (z : Z) :
  (Double.of_size_t z =? Double.of_size_t z)%float = true.
Proof.
  rewrite FloatAxioms.eqb_spec. apply SFeqb_refl. apply of_size_t_not_nan.
Qed.

(** A draw that is not below zero is not below the probability [0]. *)
Lemma ltb_zero_of_nonneg (r : float) :
  (0 <=? r)%float = true -> (r <? 0)%float = false.
Proof.
  rewrite FloatAxioms.leb_spec, FloatAxioms.ltb_spec.
  change (Prim2SF 0) with (S754_zero false).
  unfold SFleb, SFltb, SFcompare.
  destruct (Prim2SF r) as [s|s| |s m e]; try reflexivity;
    destruct s; simpl; congruence.
Qed.

Lemma Prim2SF_nan (x : float) : Prim2SF x = S754_nan -> x = nan.
Proof. intros H. apply Prim2SF_inj. rewrite H. reflexivity. Qed.

Lemma add_nan_l (x : float) : (nan + x)%float = nan.
Proof. apply Prim2SF_nan. rewrite FloatAxioms.add_spec. reflexivity. Qed.

Lemma add_nan_r (x : float) : (x + nan)%float = nan.
Proof.
  apply Prim2SF_nan. rewrite FloatAxioms.add_spec.
  change (Prim2SF nan) with S754_nan.
  destruct (Prim2SF x); reflexivity.
Qed.

Lemma accu_from_nan (v : list float) : fold_left PrimFloat.add v nan = nan.
Proof.
  induction v as [|x v IH]; simpl; [reflexivity|].
  rewrite add_nan_l. exact IH.
Qed.

Lemma accu_nan (v : list float) : In nan v -> Double.accu v = nan.
Proof.
  unfold Double.accu. generalize 0%float as acc.
  induction v as [|x v IH]; intros acc H; simpl in *; [contradiction|].
  destruct H as [H|H].
  - subst x. rewrite add_nan_r. apply accu_from_nan.
  - apply IH. exact H.
Qed.

Lemma finite_false_iff (x : float) :
  Double.finite x = false <->
  Prim2SF x = S754_nan \/ exists s, Prim2SF x = S754_infinity s.
Proof.
  unfold Double.finite. destruct (Prim2SF x) as [s|s| |s m e]; split; intros H;
    try discriminate; try reflexivity; eauto;
    destruct H as [H|[s' H]]; discriminate.
Qed.

Lemma eqb_zero_Prim2SF (x : float) :
  (x =? 0)%float = true -> exists s, Prim2SF x = S754_zero s.
Proof.
  rewrite FloatAxioms.eqb_spec. change (Prim2SF 0) with (S754_zero false).
  unfold SFeqb, SFcompare.
  destruct (Prim2SF x) as [s|s| |s m e]; intros H; eauto; try discriminate;
    destruct s; discriminate.
Qed.

(** Dividing by a zero and scaling never gives a finite number. *)
Lemma div_zero_mul_not_finite (m total p : float) :
  (total =? 0)%float = true -> Double.finite (m / total * p)%float = false.
Proof.
  intros H. destruct (eqb_zero_Prim2SF H) as [s Hs].
  apply finite_false_iff. rewrite FloatAxioms.mul_spec, FloatAxioms.div_spec, Hs.
  unfold SF64mul, SF64div.
  destruct (Prim2SF m) as [s1|s1| |s1 m1 e1]; simpl;
    destruct (Prim2SF p) as [s2|s2| |s2 m2 e2]; simpl; eauto.
Qed.

Lemma round_not_finite (x : float) :
  Double.finite x = false -> Double.round x = x.
Proof.
  unfold Double.finite, Double.round.
  destruct (Prim2SF x); intros H; try discriminate; reflexivity.
Qed.

(** * Lists and vectors *)

Lemma nth_error_skipn_cons (A : Type) (l : list A) (i : nat) (x : A) :
  nth_error l i = Some x -> skipn i l = x :: skipn (S i) l.
Proof.
  revert i; induction l as [|y l IH]; intros [|i] H; simpl in *; try discriminate.
  - injection H as ->. reflexivity.
  - apply IH. exact H.
Qed.

Lemma vec_get_Done (A : Type) (v : list A) (i : nat) (x : A) :
  vec_get v i = Done x -> nth_error v i = Some x.
Proof.
  unfold vec_get. destruct (nth_error v i); intros H; inversion H. reflexivity.
Qed.

Lemma vec_get_In (A : Type) (v : list A) (i : nat) (x : A) :
  vec_get v i = Done x -> In x v.
Proof. intros H. eapply nth_error_In. apply vec_get_Done. exact H. Qed.

Lemma vec_set_length (A : Type) (v v' : list A) (i : nat) (x : A) :
  vec_set v i x = Done v' -> length v' = length v.
Proof.
  revert i v'; induction v as [|y v IH]; intros [|i] v' H; simpl in *;
    try discriminate.
  - injection H as <-. reflexivity.
  - destruct (vec_set v i x) as [r| | |] eqn:E; simpl in H; try discriminate.
    injection H as <-. simpl. f_equal. eapply IH. exact E.
Qed.

Lemma vec_set_cases (A : Type) (v : list A) (i : nat) (x : A) :
  vec_set v i x = OutOfBounds \/ exists v', vec_set v i x = Done v'.
Proof.
  revert i; induction v as [|y v IH]; intros [|i]; simpl; eauto.
  destruct (IH i) as [-> | [v' ->]]; simpl; eauto.
Qed.

Lemma sorted_snoc (l : list nat) (x : nat) :
  StronglySorted lt l -> (forall a, In a l -> a < x) ->
  StronglySorted lt (l ++ [x]).
Proof.
  induction 1 as [|y l Hs IH Hall]; intros Hx; simpl.
  - constructor; constructor.
  - constructor.
    + apply IH. intros a Ha. apply Hx. right. exact Ha.
    + apply Forall_app. split; [exact Hall|].
      constructor; [|constructor]. apply Hx. left. reflexivity.
Qed.


(** * Skeleton of a gene list *)


Lemma endpoints_skeleton (genes : list ConnectionGene) :
  endpoints genes = map snd (skeleton genes).
Proof.
  unfold endpoints, skeleton. rewrite map_map. reflexivity.
Qed.

Lemma in_range_endpoints (n : nat) (l l' : list ConnectionGene) :
  endpoints l = endpoints l' ->
  Forall (in_range n) l -> Forall (in_range n) l'.
Proof.
  revert l'; induction l as [|c l IH]; intros [|c' l'] E H; simpl in *;
    try discriminate; constructor; inversion H; subst.
  - injection E as Es Et _. unfold in_range in *. rewrite <- Es, <- Et. assumption.
  - apply IH; [|assumption]. injection E as _ _ E. exact E.
Qed.

(** * The fitter-parent branch keeps the skeleton of its base *)

Section FitterParent.

Variable disableProb : float.
Variable rnd : nat -> float.

Lemma inherit_match_skeleton (lessGene g : ConnectionGene) (pos : nat) :
  skeleton [fst (inherit_match disableProb rnd lessGene g pos)] = skeleton [g].
Proof.
  unfold inherit_match.
  destruct (negb (Enabled g) || negb (Enabled lessGene));
    match goal with |- context [if ?b then _ else _] => destruct b end;
    reflexivity.
Qed.

Lemma match_from_skeleton (lessGene : ConnectionGene)
    (cands cands' : list ConnectionGene) (j j' pos pos' : nat) :
  match_from disableProb rnd lessGene cands j pos = Some (cands', j', pos') ->
  skeleton cands' = skeleton cands.
Proof.
  revert cands' j j' pos'; induction cands as [|g rest IH];
    intros cands' j j' pos' H; simpl in H; [discriminate|].
  destruct (InnovationID lessGene =? InnovationID g).
  - pose proof (inherit_match_skeleton lessGene g pos) as Hs.
    destruct (inherit_match disableProb rnd lessGene g pos) as [g' p'].
    injection H as <- _ _. simpl in *. injection Hs as -> -> ->. reflexivity.
  - destruct (match_from disableProb rnd lessGene rest (S j) pos)
      as [[[rest' j0] p0]|] eqn:E; [|discriminate].
    injection H as <- _ _. simpl. f_equal. eapply IH. exact E.
Qed.

Lemma find_matching_skeleton (less new : list ConnectionGene) (k pos : nat) :
  skeleton (fst (find_matching disableProb rnd less new k pos)) = skeleton new.
Proof.
  revert new k pos; induction less as [|lessGene less IH]; intros new k pos;
    simpl; [reflexivity|].
  destruct (match_from disableProb rnd lessGene (skipn k new) k pos)
    as [[[cands' j] pos']|] eqn:E.
  - rewrite IH. unfold skeleton. rewrite map_app.
    apply match_from_skeleton in E. unfold skeleton in E. rewrite E.
    rewrite <- map_app, firstn_skipn. reflexivity.
  - apply IH.
Qed.

End FitterParent.

(** * The gene-merge branch *)

Lemma ascending_head_below (c : ConnectionGene) (rest : list ConnectionGene) :
  ascending (c :: rest) ->
  forall b, In b rest -> InnovationID c < InnovationID b.
Proof.
  unfold ascending, innovations. simpl. intros H b Hb. inversion H; subst.
  rewrite Forall_forall in H3. apply H3. apply in_map. exact Hb.
Qed.

Lemma ascending_tail (c : ConnectionGene) (rest : list ConnectionGene) :
  ascending (c :: rest) -> ascending rest.
Proof. unfold ascending, innovations. simpl. intros H. inversion H; assumption. Qed.

Lemma ascending_skipn (l : list ConnectionGene) (i : nat) :
  ascending l -> ascending (skipn i l).
Proof.
  revert i; induction l as [|c l IH]; intros [|i] H; simpl; try exact H.
  apply IH. eapply ascending_tail. exact H.
Qed.

Lemma ascending_snoc (new : list ConnectionGene) (c : ConnectionGene) :
  ascending new ->
  (forall a, In a new -> InnovationID a < InnovationID c) ->
  ascending (new ++ [c]).
Proof.
  unfold ascending, innovations. intros H Hc. rewrite map_app. simpl.
  apply sorted_snoc; [exact H|].
  intros a Ha. apply in_map_iff in Ha. destruct Ha as [g [<- Hg]]. apply Hc. exact Hg.
Qed.

Lemma below_snoc (new rest : list ConnectionGene) (c : ConnectionGene) :
  below new rest ->
  (forall b, In b rest -> InnovationID c < InnovationID b) ->
  below (new ++ [c]) rest.
Proof.
  intros H Hc a b Ha Hb. apply in_app_or in Ha. destruct Ha as [Ha|[<-|[]]].
  - apply H; assumption.
  - apply Hc. exact Hb.
Qed.

Lemma below_tail (new rest : list ConnectionGene) (c : ConnectionGene) :
  below new (c :: rest) -> below new rest.
Proof. intros H a b Ha Hb. apply H; [exact Ha|right; exact Hb]. Qed.

Section GeneMerge.

Variable rnd : nat -> float.
Variables maxGenes minGenes : list ConnectionGene.
Hypothesis max_ascending : ascending maxGenes.
Hypothesis min_ascending : ascending minGenes.

Lemma merge_aligned_ascending (fuel i j : nat) (new : list ConnectionGene)
    (pos : nat) (new' : list ConnectionGene) (i' pos' : nat) :
  merged maxGenes minGenes i j new ->
  merge_aligned rnd fuel maxGenes minGenes i j new pos = Done (new', i', pos') ->
  ascending new' /\ below new' (skipn i' maxGenes).
Proof.
  revert i j new pos; induction fuel as [|fuel IH]; intros i j new pos Hinv H;
    simpl in H; [discriminate|].
  destruct (j <? length minGenes).
  2:{ injection H as <- <- _. destruct Hinv as [Ha [Hm _]]. split; assumption. }
  destruct (vec_get maxGenes i) as [g1| | |] eqn:E1; simpl in H; try discriminate.
  destruct (vec_get minGenes j) as [g2| | |] eqn:E2; simpl in H; try discriminate.
  apply vec_get_Done, nth_error_skipn_cons in E1.
  apply vec_get_Done, nth_error_skipn_cons in E2.
  destruct Hinv as [Ha [Hm Hn]].
  pose proof (ascending_skipn i max_ascending) as Sm. rewrite E1 in Sm, Hm.
  pose proof (ascending_skipn j min_ascending) as Sn. rewrite E2 in Sn, Hn.
  pose proof (ascending_head_below Sm) as Hm1.
  pose proof (ascending_head_below Sn) as Hn1.
  assert (Hg1 : forall a, In a new -> InnovationID a < InnovationID g1)
    by (intros a Hin; apply Hm; [exact Hin|left; reflexivity]).
  assert (Hg2 : forall a, In a new -> InnovationID a < InnovationID g2)
    by (intros a Hin; apply Hn; [exact Hin|left; reflexivity]).
  destruct (InnovationID g2 <? InnovationID g1) eqn:Clt.
  - apply Nat.ltb_lt in Clt.
    destruct (rnd pos <? 0.5)%float.
    + eapply IH; [|exact H]. repeat split.
      * apply ascending_snoc; assumption.
      * rewrite E1. apply below_snoc; [exact Hm|].
        intros b [<-|Hb]; [exact Clt|]. specialize (Hm1 _ Hb). lia.
      * apply below_snoc; [eapply below_tail; exact Hn|exact Hn1].
    + eapply IH; [|exact H]. repeat split; [exact Ha| |]; rewrite ?E1, ?E2; assumption.
  - apply Nat.ltb_ge in Clt.
    destruct (InnovationID g2 =? InnovationID g1) eqn:Ceq.
    + apply Nat.eqb_eq in Ceq.
      eapply IH; [|exact H].
      destruct (rnd pos <? 0.5)%float; repeat split.
      * apply ascending_snoc; assumption.
      * apply below_snoc; [eapply below_tail; exact Hm|].
        intros b Hb. rewrite Ceq. apply Hm1. exact Hb.
      * apply below_snoc; [eapply below_tail; exact Hn|exact Hn1].
      * apply ascending_snoc; assumption.
      * apply below_snoc; [eapply below_tail; exact Hm|exact Hm1].
      * apply below_snoc; [eapply below_tail; exact Hn|].
        intros b Hb. rewrite <- Ceq. apply Hn1. exact Hb.
    + apply Nat.eqb_neq in Ceq.
      destruct (rnd pos <? 0.5)%float.
      * eapply IH; [|exact H]. repeat split.
        -- apply ascending_snoc; assumption.
        -- apply below_snoc; [eapply below_tail; exact Hm|exact Hm1].
        -- rewrite E2. apply below_snoc; [exact Hn|].
           intros b [<-|Hb]; [lia|]. specialize (Hn1 _ Hb). lia.
      * eapply IH; [|exact H]. repeat split; [exact Ha| |]; rewrite ?E1, ?E2; assumption.
Qed.

Lemma merge_rest_ascending (fuel i : nat) (new : list ConnectionGene)
    (pos : nat) (new' : list ConnectionGene) (pos' : nat) :
  ascending new -> below new (skipn i maxGenes) ->
  merge_rest rnd fuel maxGenes i new pos = Done (new', pos') ->
  ascending new'.
Proof.
  revert i new pos; induction fuel as [|fuel IH]; intros i new pos Ha Hm H;
    simpl in H; [discriminate|].
  destruct (i <? length maxGenes).
  2:{ injection H as <- _. exact Ha. }
  destruct (rnd pos <? 0.5)%float.
  - destruct (vec_get maxGenes i) as [g1| | |] eqn:E1; simpl in H; try discriminate.
    apply vec_get_Done, nth_error_skipn_cons in E1.
    pose proof (ascending_skipn i max_ascending) as Sm. rewrite E1 in Sm, Hm.
    eapply IH; [| |exact H].
    + apply ascending_snoc; [exact Ha|].
      intros a Hin. apply Hm; [exact Hin|left; reflexivity].
    + apply below_snoc; [eapply below_tail; exact Hm|].
      apply ascending_head_below. exact Sm.
  - eapply IH; [exact Ha|exact Hm|exact H].
Qed.

End GeneMerge.

(** Every gene of the merged list comes from one of the lists read. *)
Lemma merge_aligned_In (rnd : nat -> float) (maxGenes minGenes : list ConnectionGene)
    (fuel i j : nat) (new : list ConnectionGene) (pos : nat)
    (new' : list ConnectionGene) (i' pos' : nat) :
  merge_aligned rnd fuel maxGenes minGenes i j new pos = Done (new', i', pos') ->
  forall c, In c new' -> In c new \/ In c maxGenes \/ In c minGenes.
Proof.
  revert i j new pos; induction fuel as [|fuel IH]; intros i j new pos H c Hc;
    simpl in H; [discriminate|].
  destruct (j <? length minGenes).
  2:{ injection H as <- _ _. left. exact Hc. }
  destruct (vec_get maxGenes i) as [g1| | |] eqn:E1; simpl in H; try discriminate.
  destruct (vec_get minGenes j) as [g2| | |] eqn:E2; simpl in H; try discriminate.
  apply vec_get_In in E1. apply vec_get_In in E2.
  assert (Hstep : forall g new0 i0 j0 p0,
             (g = g1 \/ g = g2) ->
             merge_aligned rnd fuel maxGenes minGenes i0 j0 (new0 ++ [g]) p0
               = Done (new', i', pos') ->
             new0 = new ->
             In c new \/ In c maxGenes \/ In c minGenes).
  { intros g new0 i0 j0 p0 Hg H0 ->.
    destruct (IH _ _ _ _ H0 c Hc) as [Hin|Hin]; [|right; exact Hin].
    apply in_app_or in Hin. destruct Hin as [Hin|[<-|[]]]; [left; exact Hin|].
    right. destruct Hg as [->| ->]; [left|right]; assumption. }
  destruct (InnovationID g2 <? InnovationID g1).
  - destruct (rnd pos <? 0.5)%float.
    + eapply Hstep; [right; reflexivity|exact H|reflexivity].
    + eapply IH; [exact H|exact Hc].
  - destruct (InnovationID g2 =? InnovationID g1).
    + destruct (rnd pos <? 0.5)%float.
      * eapply Hstep; [right; reflexivity|exact H|reflexivity].
      * eapply Hstep; [left; reflexivity|exact H|reflexivity].
    + destruct (rnd pos <? 0.5)%float.
      * eapply Hstep; [left; reflexivity|exact H|reflexivity].
      * eapply IH; [exact H|exact Hc].
Qed.

Lemma merge_rest_In (rnd : nat -> float) (maxGenes : list ConnectionGene)
    (fuel i : nat) (new : list ConnectionGene) (pos : nat)
    (new' : list ConnectionGene) (pos' : nat) :
  merge_rest rnd fuel maxGenes i new pos = Done (new', pos') ->
  forall c, In c new' -> In c new \/ In c maxGenes.
Proof.
  revert i new pos; induction fuel as [|fuel IH]; intros i new pos H c Hc;
    simpl in H; [discriminate|].
  destruct (i <? length maxGenes).
  2:{ injection H as <- _. left. exact Hc. }
  destruct (rnd pos <? 0.5)%float.
  - destruct (vec_get maxGenes i) as [g1| | |] eqn:E1; simpl in H; try discriminate.
    apply vec_get_In in E1.
    destruct (IH _ _ _ H c Hc) as [Hin|Hin]; [|right; exact Hin].
    apply in_app_or in Hin. destruct Hin as [Hin|[<-|[]]]; [left|right]; assumption.
  - eapply IH; [exact H|exact Hc].
Qed.

(** * Crossover as a whole *)

Section CrossoverFacts.

Context {TaskType : Type}.
Variable neat : NEAT TaskType.
Variable rnd : nat -> float.

(** The parent the fitter-parent branch takes as base when the fitnesses
    differ. *)
Lemma fitter_parent_branch_spec (equalFitness : bool) (g1 g2 : Genome) (pos : nat) :
  exists base,
    (base = g1 \/ base = g2) /\
    (equalFitness = false ->
     base = if (Fitness g2 <? Fitness g1)%float then g1 else g2) /\
    let '(child, fr) :=
      fitter_parent_branch neat rnd equalFitness (enter g1 g2 pos) in
    gen1 fr = g1 /\ gen2 fr = g2 /\
    getNodeCount child = getNodeCount base /\
    skeleton (connectionGeneList child) = skeleton (connectionGeneList base).
Proof.
  unfold fitter_parent_branch.
  set (fr0 := set_lessFitGenome (gen1 (enter g1 g2 pos)) (enter g1 g2 pos)).
  assert (Hbase : forall base less,
    deref fr0 base = (match base with ref_gen1 => g1 | ref_gen2 => g2 end) ->
    forall p,
    let fr := take_base base less (set_rngPos p fr0) in
    let '(child, fr') :=
      (let '(new, pos0) :=
         find_matching (disableProb neat) rnd
           (connectionGeneList (lessFitGenome fr)) (newConnGeneList fr) 0
           (rngPos fr) in
       let fr1 := set_rngPos pos0 (set_newConnGeneList new fr) in
       if isAcyclic neat
       then (Genome_acyclic (newConnGeneList fr1) (fr_nodeDepths fr1)
               (nextNodeID fr1) (paramsOf neat), fr1)
       else (Genome_cyclic (newConnGeneList fr1) (nextNodeID fr1)
               (paramsOf neat), fr1)) in
    gen1 fr' = g1 /\ gen2 fr' = g2 /\
    getNodeCount child = getNodeCount (deref fr0 base) /\
    skeleton (connectionGeneList child)
      = skeleton (connectionGeneList (deref fr0 base))).
  { intros base less _ p. cbv zeta.
    pose proof (find_matching_skeleton (disableProb neat) rnd
                  (connectionGeneList (lessFitGenome (take_base base less (set_rngPos p fr0))))
                  (newConnGeneList (take_base base less (set_rngPos p fr0))) 0
                  (rngPos (take_base base less (set_rngPos p fr0)))) as Hs.
    destruct (find_matching _ _ _ _ _ _) as [new pos0]. simpl in Hs.
    destruct (isAcyclic neat); simpl; repeat split; try exact Hs;
      destruct base; reflexivity. }
  destruct equalFitness.
  - unfold randu. cbv zeta.
    change (rngPos fr0) with pos.
    destruct (rnd pos <? 0.5)%float.
    + exists g1. split; [left; reflexivity|]. split; [discriminate|].
      apply (Hbase ref_gen1 ref_gen2 eq_refl (S pos)).
    + exists g2. split; [right; reflexivity|]. split; [discriminate|].
      apply (Hbase ref_gen2 ref_gen1 eq_refl (S pos)).
  - change (Fitness (gen2 fr0)) with (Fitness g2).
    change (Fitness (gen1 fr0)) with (Fitness g1).
    destruct (Fitness g2 <? Fitness g1)%float.
    + exists g1. split; [left; reflexivity|]. split; [reflexivity|].
      apply (Hbase ref_gen1 ref_gen2 eq_refl pos).
    + exists g2. split; [right; reflexivity|]. split; [reflexivity|].
      apply (Hbase ref_gen2 ref_gen1 eq_refl pos).
Qed.

Lemma gene_merge_branch_spec (fuel : nat) (g1 g2 : Genome) (pos : nat)
    (child : Genome) (fr : CrossoverFrame) :
  gene_merge_branch neat rnd fuel (enter g1 g2 pos) = Done (child, fr) ->
  gen1 fr = g1 /\ gen2 fr = g2 /\
  getNodeCount child = Nat.max (getNodeCount g1) (getNodeCount g2) /\
  (forall c, In c (connectionGeneList child) ->
             In c (connectionGeneList g1) \/ In c (connectionGeneList g2)) /\
  (ascending (connectionGeneList g1) -> ascending (connectionGeneList g2) ->
   ascending (connectionGeneList child)).
Proof.
  unfold gene_merge_branch. cbv zeta.
  change (gen1 (enter g1 g2 pos)) with g1.
  change (gen2 (enter g1 g2 pos)) with g2.
  set (maxGenome := if length (connectionGeneList g2) <? length (connectionGeneList g1)
                    then ref_gen1 else ref_gen2).
  set (minGenome := if length (connectionGeneList g1) <? length (connectionGeneList g2)
                    then ref_gen1 else ref_gen2).
  set (maxGenes := connectionGeneList (deref (enter g1 g2 pos) maxGenome)).
  set (minGenes := connectionGeneList (deref (enter g1 g2 pos) minGenome)).
  assert (Hmax : maxGenes = connectionGeneList g1 \/ maxGenes = connectionGeneList g2)
    by (subst maxGenes; destruct maxGenome; [left|right]; reflexivity).
  assert (Hmin : minGenes = connectionGeneList g1 \/ minGenes = connectionGeneList g2)
    by (subst minGenes; destruct minGenome; [left|right]; reflexivity).
  change (newConnGeneList (enter g1 g2 pos)) with (@nil ConnectionGene).
  change (rngPos (enter g1 g2 pos)) with pos.
  destruct (merge_aligned rnd fuel maxGenes minGenes 0 0 [] pos)
    as [[[new i] pos1]| | |] eqn:E1; simpl; try discriminate.
  destruct (merge_rest rnd fuel maxGenes i new pos1)
    as [[new' pos2]| | |] eqn:E2; simpl; try discriminate.
  intros H. injection H as <- <-. simpl.
  split; [reflexivity|]. split; [reflexivity|]. split; [|split].
  - destruct (getNodeCount g2 <? getNodeCount g1) eqn:C.
    + apply Nat.ltb_lt in C. lia.
    + apply Nat.ltb_ge in C. lia.
  - intros c Hc.
    destruct (merge_rest_In _ _ _ _ _ _ E2 c Hc) as [Hin|Hin].
    + destruct (merge_aligned_In _ _ _ _ _ _ _ _ E1 c Hin) as [[]|[Hin'|Hin']].
      * destruct Hmax as [<-|<-]; [left|right]; exact Hin'.
      * destruct Hmin as [<-|<-]; [left|right]; exact Hin'.
    + destruct Hmax as [<-|<-]; [left|right]; exact Hin.
  - intros A1 A2.
    assert (Amax : ascending maxGenes) by (destruct Hmax as [-> | ->]; assumption).
    assert (Amin : ascending minGenes) by (destruct Hmin as [-> | ->]; assumption).
    assert (Hinit : merged maxGenes minGenes 0 0 []).
    { repeat split; try (intros a b []). constructor. }
    edestruct merge_aligned_ascending as [Ha Hb];
      [exact Amax|exact Amin|exact Hinit|exact E1|].
    eapply merge_rest_ascending; [exact Amax|exact Ha|exact Hb|exact E2].
Qed.

End CrossoverFacts.

(** * Node counts of the child (C6) *)

(** C6, as the code has it.  For parents whose genes join nodes below their
    own node count: in the fitter-parent branch (fitnesses differ, or the run
    is acyclic) [Crossover] always returns, the child's node count is that of
    its base parent (the fitter one when the fitnesses differ), not the
    maximum, and the child's genes join nodes below it; in the gene-merge
    branch every child returned has the maximum of the parents' node counts
    and its genes join nodes below it. *)
Theorem Crossover_node_count {TaskType : Type} (neat : NEAT TaskType)
    (rnd : nat -> float) (fuel : nat) (g1 g2 : Genome) (pos : nat) :
  genes_in_range g1 -> genes_in_range g2 ->
  let equalFitness := (abs (Fitness g1 - Fitness g2) <? fitness_tolerance)%float in
  if negb equalFitness || isAcyclic neat then
    exists child fr base,
      Crossover neat rnd fuel g1 g2 pos = Done (child, fr) /\
      (base = g1 \/ base = g2) /\
      (equalFitness = false ->
       base = if (Fitness g2 <? Fitness g1)%float then g1 else g2) /\
      getNodeCount child = getNodeCount base /\
      genes_in_range child
  else
    forall child fr,
      Crossover neat rnd fuel g1 g2 pos = Done (child, fr) ->
      getNodeCount child = Nat.max (getNodeCount g1) (getNodeCount g2) /\
      genes_in_range child.
Proof.
  intros R1 R2 equalFitness. unfold Crossover. cbv zeta.
  change (Fitness (gen1 (enter g1 g2 pos))) with (Fitness g1).
  change (Fitness (gen2 (enter g1 g2 pos))) with (Fitness g2).
  fold equalFitness.
  destruct (negb equalFitness || isAcyclic neat).
  - destruct (fitter_parent_branch_spec neat rnd equalFitness g1 g2 pos)
      as [base [Hb [Hf Hc]]].
    destruct (fitter_parent_branch neat rnd equalFitness (enter g1 g2 pos))
      as [child fr].
    destruct Hc as [_ [_ [Hn Hs]]].
    exists child, fr, base. repeat split; try assumption.
    unfold genes_in_range. rewrite Hn.
    apply in_range_endpoints with (l := connectionGeneList base).
    + rewrite !endpoints_skeleton, Hs. reflexivity.
    + destruct Hb as [-> | ->]; assumption.
  - intros child fr H. apply gene_merge_branch_spec in H.
    destruct H as [_ [_ [Hn [Hin _]]]]. split; [exact Hn|].
    unfold genes_in_range. rewrite Hn. apply Forall_forall. intros c Hc.
    unfold genes_in_range in R1, R2. rewrite Forall_forall in R1, R2.
    destruct (Hin c Hc) as [H1|H2].
    + destruct (R1 c H1). split; lia.
    + destruct (R2 c H2). split; lia.
Qed.

Lemma Crossover_node_count_witness :
  genes_in_range Ex.narrow /\ genes_in_range Ex.wide /\
  exists child fr base,
    Crossover (Ex.engine 10 []) Ex.draws 10 Ex.narrow Ex.wide 0 = Done (child, fr) /\
    (base = Ex.narrow \/ base = Ex.wide) /\
    (false = false ->
     base = if (Fitness Ex.wide <? Fitness Ex.narrow)%float then Ex.narrow else Ex.wide) /\
    getNodeCount child = getNodeCount base /\
    genes_in_range child.
Proof.
  assert (R1 : genes_in_range Ex.narrow)
    by (repeat constructor; simpl; lia).
  assert (R2 : genes_in_range Ex.wide)
    by (repeat constructor; simpl; lia).
  split; [exact R1|]. split; [exact R2|].
  exact (Crossover_node_count (Ex.engine 10 []) Ex.draws 10 0 R1 R2).
Defined.

(** C6 as stated fails: the fitter parent has 4 nodes, the other 5, and the
    child has 4. *)
Lemma Crossover_node_count_not_max :
  exists child fr,
    Crossover (Ex.engine 10 []) Ex.draws 10 Ex.narrow Ex.wide 0 = Done (child, fr) /\
    getNodeCount child = 4 /\
    Nat.max (getNodeCount Ex.narrow) (getNodeCount Ex.wide) = 5.
Proof.
  eexists. eexists. split; [vm_compute; reflexivity|]. split; reflexivity.
Qed.

(** * Crossover leaves its parents alone (C10) *)

(** C10.  When [Crossover(gen1, gen2)] returns, the two genomes it was given
    by reference hold the connection genes, node count, node depths and
    fitness they held at the call. *)
Theorem Crossover_parents_unchanged {TaskType : Type} (neat : NEAT TaskType)
    (rnd : nat -> float) (fuel : nat) (g1 g2 : Genome) (pos : nat)
    (child : Genome) (fr : CrossoverFrame) :
  Crossover neat rnd fuel g1 g2 pos = Done (child, fr) ->
  (connectionGeneList (gen1 fr) = connectionGeneList g1 /\
   getNodeCount (gen1 fr) = getNodeCount g1 /\
   nodeDepths (gen1 fr) = nodeDepths g1 /\
   Fitness (gen1 fr) = Fitness g1) /\
  (connectionGeneList (gen2 fr) = connectionGeneList g2 /\
   getNodeCount (gen2 fr) = getNodeCount g2 /\
   nodeDepths (gen2 fr) = nodeDepths g2 /\
   Fitness (gen2 fr) = Fitness g2).
Proof.
  unfold Crossover. cbv zeta.
  set (equalFitness := (abs _ <? fitness_tolerance)%float).
  destruct (negb equalFitness || isAcyclic neat).
  - destruct (fitter_parent_branch_spec neat rnd equalFitness g1 g2 pos)
      as [base [_ [_ Hc]]].
    intros H. injection H as H. rewrite H in Hc.
    destruct Hc as [-> [-> _]]. repeat split.
  - intros H. apply gene_merge_branch_spec in H.
    destruct H as [-> [-> _]]. repeat split.
Qed.

Lemma Crossover_parents_unchanged_witness :
  exists child fr,
    Crossover (Ex.engine 10 []) Ex.draws 10 Ex.twin Ex.wide 0 = Done (child, fr) /\
    connectionGeneList (gen1 fr) = connectionGeneList Ex.twin /\
    connectionGeneList (gen2 fr) = connectionGeneList Ex.wide.
Proof.
  assert (H : { r | Crossover (Ex.engine 10 []) Ex.draws 10 Ex.twin Ex.wide 0 = Done r }).
  { eexists. vm_compute. reflexivity. }
  destruct H as [[child fr] H].
  exists child, fr. split; [exact H|].
  destruct (Crossover_parents_unchanged _ _ _ _ _ _ H) as [[H1 _] [H2 _]].
  split; assumption.
Defined.

(** * Innovation IDs within a genome (C9) *)




(** ** The ledger stays sound *)






(** ** The invariant of a genome *)





(** ** A new gene in its place *)




(** ** Mutation *)




(** ** Crossover *)





(** * The loops of the gene-merge branch finish when the draws accept *)

Section MergeFinishes.

Variable rnd : nat -> float.
Hypothesis rnd_accepts : forall p, (rnd p <? 0.5)%float = true.

Lemma merge_aligned_finishes (maxGenes minGenes : list ConnectionGene)
    (fuel i j : nat) (new : list ConnectionGene) (pos : nat) :
  (length maxGenes - i) + (length minGenes - j) < fuel ->
  merge_aligned rnd fuel maxGenes minGenes i j new pos <> OutOfFuel.
Proof.
  revert i j new pos; induction fuel as [|fuel IH]; intros i j new pos Hf;
    simpl; [lia|].
  destruct (j <? length minGenes) eqn:Cj; [|discriminate].
  apply Nat.ltb_lt in Cj.
  unfold vec_get at 1. destruct (nth_error maxGenes i) as [g1|] eqn:E1; simpl;
    [|discriminate].
  assert (Hi : i < length maxGenes)
    by (apply nth_error_Some; rewrite E1; discriminate).
  unfold vec_get at 1. destruct (nth_error minGenes j) as [g2|] eqn:E2; simpl;
    [|discriminate].
  rewrite rnd_accepts.
  destruct (InnovationID g2 <? InnovationID g1); [apply IH; lia|].
  destruct (InnovationID g2 =? InnovationID g1); apply IH; lia.
Qed.

Lemma merge_rest_finishes (maxGenes : list ConnectionGene) (fuel i : nat)
    (new : list ConnectionGene) (pos : nat) :
  length maxGenes - i < fuel ->
  merge_rest rnd fuel maxGenes i new pos <> OutOfFuel.
Proof.
  revert i new pos; induction fuel as [|fuel IH]; intros i new pos Hf;
    simpl; [lia|].
  destruct (i <? length maxGenes) eqn:Ci; [|discriminate].
  apply Nat.ltb_lt in Ci. rewrite rnd_accepts.
  unfold vec_get. destruct (nth_error maxGenes i) as [g1|] eqn:E1; simpl;
    [|discriminate].
  apply IH. lia.
Qed.

(** With accepting draws and more fuel than the parents have genes,
    [Crossover] does not run out of fuel: it returns a child or reads past
    the end of the longer gene list. *)
Lemma Crossover_finishes {TaskType : Type} (neat : NEAT TaskType)
    (fuel : nat) (g1 g2 : Genome) (pos : nat) :
  length (connectionGeneList g1) + length (connectionGeneList g2) < fuel ->
  Crossover neat rnd fuel g1 g2 pos <> OutOfFuel.
Proof.
  intros Hf. unfold Crossover. cbv zeta.
  destruct (negb _ || isAcyclic neat); [discriminate|].
  unfold gene_merge_branch. cbv zeta.
  change (gen1 (enter g1 g2 pos)) with g1.
  change (gen2 (enter g1 g2 pos)) with g2.
  set (maxGenome := if length (connectionGeneList g2) <? length (connectionGeneList g1)
                    then ref_gen1 else ref_gen2).
  set (minGenome := if length (connectionGeneList g1) <? length (connectionGeneList g2)
                    then ref_gen1 else ref_gen2).
  set (maxGenes := connectionGeneList (deref (enter g1 g2 pos) maxGenome)).
  set (minGenes := connectionGeneList (deref (enter g1 g2 pos) minGenome)).
  assert (Hlen : length maxGenes + length minGenes < fuel).
  { subst maxGenes minGenes maxGenome minGenome. simpl.
    destruct (length (connectionGeneList g2) <? length (connectionGeneList g1)) eqn:C1;
      destruct (length (connectionGeneList g1) <? length (connectionGeneList g2)) eqn:C2;
      simpl; try lia.
    - apply Nat.ltb_lt in C1. apply Nat.ltb_lt in C2. lia.
    - apply Nat.ltb_ge in C1. apply Nat.ltb_ge in C2. lia. }
  pose proof (@merge_aligned_finishes maxGenes minGenes fuel 0 0
                (newConnGeneList (enter g1 g2 pos)) (rngPos (enter g1 g2 pos))) as H1.
  destruct (merge_aligned rnd fuel maxGenes minGenes 0 0 _ _)
    as [[[new i] pos1]| | |]; simpl; try discriminate;
    [|exfalso; apply H1; [lia|reflexivity]].
  pose proof (@merge_rest_finishes maxGenes fuel i new pos1) as H2.
  destruct (merge_rest rnd fuel maxGenes i new pos1)
    as [[new' pos2]| | |]; simpl; try discriminate.
  exfalso. apply H2; [lia|reflexivity].
Qed.

End MergeFinishes.

(** Two parents of equal fitness, merged: the child has every innovation of
    both and the larger node count; four draws are used. *)
Example Crossover_merge_example :
  exists child fr,
    Crossover (Ex.engine 10 []) (fun _ => 0.25%float) 8 Ex.twin Ex.wide 0
      = Done (child, fr) /\
    innovations (connectionGeneList child) = [0; 1; 2; 3] /\
    getNodeCount child = 5 /\ rngPos fr = 4.
Proof.
  eexists. eexists. split; [vm_compute; reflexivity|]. repeat split.
Qed.

(** The smaller parent ends with the newest gene: the merge reads past the
    end of the longer list. *)
Example Crossover_merge_out_of_bounds :
  Crossover (Ex.engine 10 []) (fun _ => 0.25%float) 8
    (set_Fitness 1 Ex.narrow) Ex.wide 0 = OutOfBounds.
Proof. vm_compute. reflexivity. Qed.

(** A deficit is reconciled: ten genomes of fitness 1 in species of 3, 2 and
    5 are allotted 3 + 3 + 3, and the first species gets the slot left. *)
Example deficit_reconciled_example :
  let m := Ex.member 1 in
  speciesSizes (Ex.engine 10 [[m; m; m]; [m; m]; [m; m; m; m; m]]) 2
    = Done [4%float; 3%float; 3%float].
Proof. vm_compute. reflexivity. Qed.

(** With an empty species the allotments are NaN, and the conversion of
    [popSize - accu(speciesSize)] to [int] is undefined. *)
Example empty_species_sizes_undefined :
  allotted (Ex.engine 3 [[Ex.member 1; Ex.member 1; Ex.member 1]; []])
    = [nan; nan] /\
  speciesSizes (Ex.engine 3 [[Ex.member 1; Ex.member 1; Ex.member 1]; []]) 5
    = Undefined.
Proof. split; vm_compute; reflexivity. Qed.

(** A generation of one genome and population size 2: the first child
    cannot be bred. *)
Example Reproduce_example :
  Reproduce (fun (g : Genome) (st : unit * nat) => (g, st))
    (Ex.engine 2 [[Ex.member 1]]) Ex.draws 10 (tt, 0) = OutOfBounds.
Proof. vm_compute. reflexivity. Qed.

(** One candidate: both draws pick it. *)
Example Select_single_candidate :
  RankSelection.Select Ex.draws 10 [1%float] [0%float; 0%float] 0
    = Done ([0%float; 0%float], 2).
Proof. vm_compute. reflexivity. Qed.

(** * Reconciliation of the species sizes (C1) *)

Section Reconcile.

Context {TaskType : Type}.
Variable neat : NEAT TaskType.

(** The loop that removes the excess moves [delta] away from zero, so it
    never reaches its exit. *)
Lemma remove_excess_never_done (fuel : nat) (speciesSize : list float)
    (i : nat) (delta : Z) :
  (delta < 0)%Z -> is_done (remove_excess fuel speciesSize i delta) = false.
Proof.
  revert speciesSize i delta; induction fuel as [|fuel IH];
    intros speciesSize i delta Hd; simpl; [reflexivity|].
  destruct (delta <? 0)%Z eqn:C; [|apply Z.ltb_ge in C; lia].
  destruct (vec_get speciesSize i) as [x| | |]; simpl; try reflexivity.
  destruct (vec_set speciesSize i (x - 1)%float) as [v| | |]; simpl;
    try reflexivity.
  destruct (delta - 1 <? Double.int_min)%Z; [reflexivity|].
  apply IH. lia.
Qed.

(** With more fuel than species it runs off the end of [speciesSize] (or
    [delta] underflows first). *)
Lemma remove_excess_faults (fuel : nat) (speciesSize : list float)
    (i : nat) (delta : Z) :
  (delta < 0)%Z -> length speciesSize - i < fuel ->
  remove_excess fuel speciesSize i delta = OutOfBounds \/
  remove_excess fuel speciesSize i delta = Undefined.
Proof.
  revert speciesSize i delta; induction fuel as [|fuel IH];
    intros speciesSize i delta Hd Hf; simpl; [lia|].
  destruct (delta <? 0)%Z eqn:C; [|apply Z.ltb_ge in C; lia].
  unfold vec_get. destruct (nth_error speciesSize i) as [x|] eqn:E; simpl;
    [|left; reflexivity].
  assert (Hi : i < length speciesSize)
    by (apply nth_error_Some; rewrite E; discriminate).
  destruct (vec_set_cases speciesSize i (x - 1)%float) as [-> | [v Ev]];
    [left; reflexivity|].
  rewrite Ev. simpl.
  destruct (delta - 1 <? Double.int_min)%Z; [right; reflexivity|].
  apply IH; [lia|]. rewrite (vec_set_length _ _ _ Ev). lia.
Qed.

Lemma reconcile_surplus_never_done (fuel : nat) (speciesSize : list float)
    (delta : Z) :
  Double.to_int (Double.of_nat (popSize neat) - Double.accu speciesSize)%float
    = Done delta ->
  (delta < 0)%Z ->
  is_done (reconcile neat fuel speciesSize) = false.
Proof.
  intros E Hd. unfold reconcile. rewrite E. simpl.
  destruct (0 <? delta)%Z eqn:C; [apply Z.ltb_lt in C; lia|].
  destruct (delta <? 0)%Z eqn:C'; [|apply Z.ltb_ge in C'; lia].
  apply remove_excess_never_done. exact Hd.
Qed.

End Reconcile.

(** C1 fails on the code.  Three genomes of fitness 1, two in the first
    species and one in the second: each species is allotted
    [round(1.5) = 2], one slot too many in all, and the reconciliation never
    yields sizes, whatever the fuel; it writes past the end of
    [speciesSize]. *)
Theorem surplus_never_reconciled :
  allotted (Ex.engine 3 [[Ex.member 1; Ex.member 1]; [Ex.member 1]])
    = [2%float; 2%float] /\
  (forall fuel,
     is_done (speciesSizes (Ex.engine 3 [[Ex.member 1; Ex.member 1]; [Ex.member 1]])
                fuel) = false) /\
  speciesSizes (Ex.engine 3 [[Ex.member 1; Ex.member 1]; [Ex.member 1]]) 3
    = OutOfBounds.
Proof.
  split; [vm_compute; reflexivity|]. split; [|vm_compute; reflexivity].
  intros fuel. unfold speciesSizes.
  apply reconcile_surplus_never_done with (delta := (-1)%Z); [|lia].
  vm_compute. reflexivity.
Qed.

(** * Rank selection (C3) *)

Section RankSelectionFacts.

Variable rnd : nat -> float.
Hypothesis rnd_nonneg : forall i, (0 <=? rnd i)%float = true.

Variable size : Z.
Hypothesis size_ge_2 : (2 <= size)%Z.
Hypothesis size_small : (size < 2 ^ 32)%Z.

(** The quotient of the two [size_t] values is 0 for every position. *)
Lemma prob_zero (pos : Z) :
  (0 <= pos < size)%Z -> RankSelection.prob size pos = Done 0%float.
Proof.
  intros Hp. unfold RankSelection.prob.
  assert (Hden : (0 < size * (size + 1) < 2 ^ 64)%Z).
  { split; [nia|]. change (2 ^ 64)%Z with (2 ^ 32 * 2 ^ 32)%Z. nia. }
  assert (Hnum : (0 <= (size - pos) * 2 < size * (size + 1))%Z) by nia.
  rewrite (Z.mod_small (size * (size + 1)) (2 ^ 64)) by lia.
  rewrite (Z.mod_small ((size - pos) * 2) (2 ^ 64)) by lia.
  destruct (size * (size + 1) =? 0)%Z eqn:C; [apply Z.eqb_eq in C; lia|].
  rewrite Z.div_small by lia. reflexivity.
Qed.

Lemma choose_first_never_accepts (fuel : nat) (rest : list float)
    (pos : Z) (rp : nat) :
  (0 <= pos)%Z ->
  RankSelection.choose_first rnd fuel size (Double.of_size_t size :: rest) pos rp
    = OutOfFuel.
Proof.
  revert pos rp; induction fuel as [|fuel IH]; intros pos rp Hp; simpl;
    [reflexivity|].
  rewrite of_size_t_eqb_refl.
  set (pos' := if (size <=? pos)%Z then 0%Z else pos).
  assert (Hp' : (0 <= pos' < size)%Z).
  { subst pos'. destruct (size <=? pos)%Z eqn:C; [lia|].
    apply Z.leb_gt in C. lia. }
  rewrite (prob_zero Hp'). simpl.
  rewrite (ltb_zero_of_nonneg (rnd_nonneg rp)). simpl.
  apply IH. lia.
Qed.

End RankSelectionFacts.

(** C3 fails on the code.  For a fitness vector of 2 to [2^32 - 1] elements
    and draws that are not negative, the acceptance probability, computed by
    integer division, is 0 at every position: the first loop never accepts a
    candidate and [Select] returns for no amount of fuel. *)
Theorem Select_never_returns (rnd : nat -> float) (fuel : nat)
    (fitnesses : list float) (s0 s1 : float) (rp : nat) :
  (2 <= Z.of_nat (length fitnesses) < 2 ^ 32)%Z ->
  (forall i, (0 <=? rnd i)%float = true) ->
  RankSelection.Select rnd fuel fitnesses [s0; s1] rp = OutOfFuel.
Proof.
  intros [Hlo Hhi] Hr. unfold RankSelection.Select. simpl.
  rewrite choose_first_never_accepts; try assumption; [reflexivity|lia].
Qed.

Lemma Select_never_returns_witness :
  RankSelection.Select Ex.draws 1000 [1%float; 2%float] [0%float; 0%float] 0
    = OutOfFuel.
Proof.
  apply (@Select_never_returns Ex.draws 1000 [1%float; 2%float] 0%float 0%float 0).
  - simpl. lia.
  - intros i. unfold Ex.draws. destruct (Nat.even i); reflexivity.
Defined.

(** * Elites (C4) *)

Lemma std_sort_empty_range (A : Type) (comp : A -> A -> bool) (v : list A) :
  std_sort comp 0 0 v = v.
Proof. reflexivity. Qed.

(** The elites of a species are its first members in stored order. *)
Lemma copy_elites_prefix (numElite : float) (j : nat) (members genomeList out : list Genome) :
  copy_elites numElite j members genomeList = Done out ->
  exists k, out = genomeList ++ firstn k members.
Proof.
  revert j genomeList; induction members as [|g rest IH]; intros j genomeList H;
    simpl in H.
  - destruct (Double.of_nat j <? numElite)%float; [discriminate|].
    injection H as <-. exists 0. rewrite app_nil_r. reflexivity.
  - destruct (Double.of_nat j <? numElite)%float.
    + destruct (IH _ _ H) as [k ->]. exists (S k). simpl.
      rewrite <- app_assoc. reflexivity.
    + injection H as <-. exists 0. rewrite app_nil_r. reflexivity.
Qed.

(** C4 fails on the code.  A species of two members with fitness 1 and 5, in
    that order, and size 2: the elite count is [round(0.5 * 2) = 1], the sort
    over the empty range leaves the order as it is, and the one elite copied
    is the member of fitness 1, not the fitter one. *)
Theorem elite_is_first_member_not_fittest :
  eliteCount (Ex.engine 2 [[Ex.member 1; Ex.member 5]]) 2 = 1%float /\
  std_sort compareGenome 0 0 [Ex.member 1; Ex.member 5]
    = [Ex.member 1; Ex.member 5] /\
  copy_elites (eliteCount (Ex.engine 2 [[Ex.member 1; Ex.member 5]]) 2) 0
    (std_sort compareGenome 0 0 [Ex.member 1; Ex.member 5]) []
    = Done [Ex.member 1] /\
  compareGenome (Ex.member 5) (Ex.member 1) = true.
Proof.
  repeat split; vm_compute; reflexivity.
Qed.

(** * Breeding (C5) *)

Lemma choose_first_length (rnd : nat -> float) (fuel : nat) (size : Z)
    (selection : list float) (pos : Z) (rp : nat) (selection' : list float)
    (rp' : nat) :
  RankSelection.choose_first rnd fuel size selection pos rp = Done (selection', rp') ->
  length selection' = length selection.
Proof.
  revert selection pos rp; induction fuel as [|fuel IH]; intros selection pos rp H;
    simpl in H; [discriminate|].
  destruct (vec_get selection 0) as [s0| | |]; simpl in H; try discriminate.
  destruct (s0 =? Double.of_size_t size)%float.
  2:{ injection H as <- _. reflexivity. }
  destruct (RankSelection.prob size _) as [p| | |]; simpl in H; try discriminate.
  destruct (rnd rp <? p)%float.
  - destruct (vec_set selection 0 _) as [v| | |] eqn:E; simpl in H; try discriminate.
    rewrite (IH _ _ _ H). eapply vec_set_length. exact E.
  - simpl in H. exact (IH _ _ _ H).
Qed.

Lemma choose_second_length (rnd : nat -> float) (fuel : nat) (size : Z)
    (selection : list float) (pos : Z) (rp : nat) (selection' : list float)
    (rp' : nat) :
  RankSelection.choose_second rnd fuel size selection pos rp = Done (selection', rp') ->
  length selection' = length selection.
Proof.
  revert selection pos rp; induction fuel as [|fuel IH]; intros selection pos rp H;
    simpl in H; [discriminate|].
  destruct (vec_get selection 0) as [s0| | |]; simpl in H; try discriminate.
  destruct (vec_get selection 1) as [s1| | |]; simpl in H; try discriminate.
  destruct ((s1 =? Double.of_size_t size)%float && negb (s0 =? s1)%float).
  2:{ injection H as <- _. reflexivity. }
  destruct (RankSelection.prob size _) as [p| | |]; simpl in H; try discriminate.
  destruct (rnd rp <? p)%float.
  - destruct (vec_set selection 1 _) as [v| | |] eqn:E; simpl in H; try discriminate.
    rewrite (IH _ _ _ H). eapply vec_set_length. exact E.
  - simpl in H. exact (IH _ _ _ H).
Qed.

(** [RankSelection::Select] leaves [selection] with the two elements it was
    given. *)
Lemma Select_length (rnd : nat -> float) (fuel : nat)
    (fitnesses selection : list float) (rp : nat) (selection' : list float)
    (rp' : nat) :
  RankSelection.Select rnd fuel fitnesses selection rp = Done (selection', rp') ->
  length selection' = length selection.
Proof.
  unfold RankSelection.Select. intros H.
  destruct (vec_set selection 0 _) as [v0| | |] eqn:E0; simpl in H; try discriminate.
  destruct (vec_set v0 1 _) as [v1| | |] eqn:E1; simpl in H; try discriminate.
  destruct (RankSelection.choose_first rnd fuel _ v1 0 rp) as [[v2 rp2]| | |] eqn:E2;
    simpl in H; try discriminate.
  rewrite (choose_second_length _ _ _ _ _ _ H), (choose_first_length _ _ _ _ _ _ E2),
    (vec_set_length _ _ _ E1), (vec_set_length _ _ _ E0).
  reflexivity.
Qed.

(** C5 fails on the code.  Whenever rank selection returns, [Reproduce] takes
    the second parent's index from [selection[2]], past the end of the
    two-element vector: no child is crossed over, mutated or inserted. *)
Theorem breed_reads_past_selection {TaskType : Type} (Statics : Type)
    (Mutate : Genome -> Statics * nat -> Genome * (Statics * nat))
    (neat : NEAT TaskType) (rnd : nat -> float) (fuel : nat)
    (species : list Genome) (fitnesses : list float) (genomeList : list Genome)
    (st : Statics * nat) (selection : list float) (rp : nat) :
  RankSelection.Select rnd fuel fitnesses [0%float; 0%float] (snd st)
    = Done (selection, rp) ->
  breed (policy := RankSelection_policy) Mutate neat rnd fuel species fitnesses
    genomeList st = OutOfBounds.
Proof.
  intros H. unfold breed. simpl. rewrite H. simpl.
  apply Select_length in H. simpl in H.
  destruct selection as [|a [|b [|c rest]]]; simpl in H; try discriminate.
  reflexivity.
Qed.

Lemma breed_reads_past_selection_witness :
  RankSelection.Select Ex.draws 10 [1%float] [0%float; 0%float] 0
    = Done ([0%float; 0%float], 2) /\
  breed (policy := RankSelection_policy)
    (fun (g : Genome) (st : unit * nat) => (g, st)) (Ex.engine 2 [[Ex.member 1]])
    Ex.draws 10 [Ex.member 1] [1%float] [Ex.member 1] (tt, 0) = OutOfBounds.
Proof.
  assert (H : RankSelection.Select Ex.draws 10 [1%float] [0%float; 0%float] 0
              = Done ([0%float; 0%float], 2)) by (vm_compute; reflexivity).
  split; [exact H|].
  exact (@breed_reads_past_selection unit unit
           (fun (g : Genome) (st : unit * nat) => (g, st))
           (Ex.engine 2 [[Ex.member 1]]) Ex.draws 10 [Ex.member 1] [1%float]
           [Ex.member 1] (tt, 0) [0%float; 0%float] 2 H).
Defined.

(** * Construction (C8) *)

(** C8, as the code has it.  The constructor checks nothing: for every choice
    of the arguments, zero counts and more species than genomes included, it
    returns an engine that holds every argument as given (the task, the five
    counts, the nine doubles and the flag) and two empty vectors. *)
Theorem NEAT_new_accepts_all {TaskType : Type} (task0 : TaskType)
    (inputs outputs size generations species : nat)
    (bias0 wProb wSize bProb bSize nodeProb connProb disable elitism : float)
    (acyclic : bool) :
  exists neat,
    NEAT_new task0 inputs outputs size generations species bias0 wProb wSize
      bProb bSize nodeProb connProb disable elitism acyclic = Done neat /\
    task neat = task0 /\
    inputNodeCount neat = inputs /\
    outputNodeCount neat = outputs /\
    popSize neat = size /\
    maxGen neat = generations /\
    numSpecies neat = species /\
    bias neat = bias0 /\
    weightMutationProb neat = wProb /\
    weightMutationSize neat = wSize /\
    biasMutationProb neat = bProb /\
    biasMutationSize neat = bSize /\
    nodeAdditionProb neat = nodeProb /\
    connAdditionProb neat = connProb /\
    disableProb neat = disable /\
    elitismProp neat = elitism /\
    isAcyclic neat = acyclic /\
    genomeList neat = [] /\ speciesList neat = [].
Proof.
  eexists. split; [reflexivity|]. repeat split.
Qed.

(** C8 as stated fails: no input node, no output node, an empty population
    and five species, and the constructor returns an engine. *)
Lemma NEAT_new_zero_sizes :
  exists neat,
    NEAT_new tt 0 0 0 3 5 1 0 0 0 0 0 0 0.75 0.5 false = Done neat /\
    inputNodeCount neat = 0 /\ outputNodeCount neat = 0 /\
    popSize neat = 0 /\ popSize neat < numSpecies neat.
Proof.
  eexists. split; [reflexivity|]. simpl. repeat split. lia.
Qed.

(** * Mean fitness of an empty species (C2) *)

Section Allotment.

Context {TaskType : Type}.
Variable neat : NEAT TaskType.

(** C2, as the code has it.  For a species that received no member,
    [Reproduce] divides the empty sum by the member count zero: the mean
    fitness of that species is NaN, not 0, and so is the total of the mean
    fitnesses. *)
Theorem empty_species_mean_nan (i : nat) :
  nth_error (speciesList neat) i = Some [] ->
  nth_error (meanFitnesses neat) i = Some nan /\
  totalMeanFitness neat = nan.
Proof.
  intros H.
  assert (Hm : nth_error (meanFitnesses neat) i = Some nan).
  { unfold meanFitnesses. rewrite nth_error_map, H. reflexivity. }
  split; [exact Hm|].
  unfold totalMeanFitness. apply accu_nan.
  eapply nth_error_In. exact Hm.
Qed.

(** * Allotment when the total mean fitness is zero (C7) *)

(** C7, as the code has it.  When the total of the mean fitnesses is zero
    the division is carried out all the same, and no species is allotted a
    finite size: each allotment is NaN or an infinity. *)
Theorem zero_total_allotment_not_finite :
  (totalMeanFitness neat =? 0)%float = true ->
  Forall (fun size => Double.finite size = false) (allotted neat).
Proof.
  intros H. unfold allotted. apply Forall_forall. intros size Hs.
  apply in_map_iff in Hs. destruct Hs as [m [<- _]]. unfold allot.
  pose proof (div_zero_mul_not_finite m (Double.of_nat (popSize neat)) H) as Hf.
  rewrite (round_not_finite _ Hf). exact Hf.
Qed.

End Allotment.

Lemma empty_species_mean_nan_witness :
  nth_error (meanFitnesses (Ex.engine 3 [[Ex.member 1; Ex.member 1; Ex.member 1]; []])) 1
    = Some nan /\
  totalMeanFitness (Ex.engine 3 [[Ex.member 1; Ex.member 1; Ex.member 1]; []]) = nan.
Proof.
  apply (@empty_species_mean_nan unit
           (Ex.engine 3 [[Ex.member 1; Ex.member 1; Ex.member 1]; []]) 1).
  reflexivity.
Defined.

(** C2 as stated fails: with three genomes in the first species and none in
    the second, the second species does not count as mean fitness 0. *)
Lemma empty_species_not_zero :
  ~ (forall i,
       nth_error (speciesList (Ex.engine 3 [[Ex.member 1; Ex.member 1; Ex.member 1]; []])) i
         = Some [] ->
       exists m,
         nth_error (meanFitnesses (Ex.engine 3 [[Ex.member 1; Ex.member 1; Ex.member 1]; []])) i
           = Some m /\
         (m =? 0)%float = true).
Proof.
  intros H. destruct (H 1 eq_refl) as [m [Hm Hz]].
  vm_compute in Hm. injection Hm as <-. vm_compute in Hz. discriminate.
Qed.

Lemma zero_total_allotment_not_finite_witness :
  Forall (fun size => Double.finite size = false)
    (allotted (Ex.engine 3 [[Ex.member 0; Ex.member 0]; [Ex.member 0]])).
Proof.
  apply (@zero_total_allotment_not_finite unit
           (Ex.engine 3 [[Ex.member 0; Ex.member 0]; [Ex.member 0]])).
  vm_compute. reflexivity.
Defined.

(** C7 as stated fails: three genomes of fitness 0 in two species, and the
    species are not allotted one common size. *)
Lemma zero_total_allotment_not_uniform :
  (totalMeanFitness (Ex.engine 3 [[Ex.member 0; Ex.member 0]; [Ex.member 0]]) =? 0)%float
    = true /\
  ~ (exists u,
       Forall (fun size => (size =? u)%float = true)
         (allotted (Ex.engine 3 [[Ex.member 0; Ex.member 0]; [Ex.member 0]]))).
Proof.
  split; [vm_compute; reflexivity|].
  intros [u H].
  assert (E : allotted (Ex.engine 3 [[Ex.member 0; Ex.member 0]; [Ex.member 0]])
              = [nan; nan]) by (vm_compute; reflexivity).
  rewrite E in H. inversion H as [|x l Hx _]; subst.
  rewrite FloatAxioms.eqb_spec in Hx. discriminate.
Qed.

(** * The order of doubles *)

Ltac sf_cases :=
  repeat match goal with
         | s : bool |- _ => destruct s
         end;
  simpl in *; try congruence.

Ltac cmp_facts :=
  repeat match goal with
         | H : context [Pos.compare_cont Eq ?a ?b] |- _ =>
             change (Pos.compare_cont Eq a b) with (Pos.compare a b) in H
         | |- context [Pos.compare_cont Eq ?a ?b] =>
             change (Pos.compare_cont Eq a b) with (Pos.compare a b)
         end;
  repeat match goal with
         | H : context [Z.compare ?a ?b] |- _ =>
             let C := fresh "C" in
             destruct (Z.compare_spec a b) as [C|C|C]; simpl in H; try congruence
         | H : context [Pos.compare ?a ?b] |- _ =>
             let C := fresh "C" in
             destruct (Pos.compare_spec a b) as [C|C|C]; simpl in H; try congruence
         end;
  repeat match goal with
         | |- context [Z.compare ?a ?b] =>
             let C := fresh "C" in
             destruct (Z.compare_spec a b) as [C|C|C]; simpl; try congruence; try lia
         | |- context [Pos.compare ?a ?b] =>
             let C := fresh "C" in
             destruct (Pos.compare_spec a b) as [C|C|C]; simpl; try congruence; try lia
         end.

Lemma SFcompare_lt_trans (x y z : spec_float) :
  SFcompare x y = Some Lt -> SFcompare y z = Some Lt -> SFcompare x z = Some Lt.
Proof.
  destruct x as [sx|sx| |sx mx ex], y as [sy|sy| |sy my ey],
    z as [sz|sz| |sz mz ez]; simpl; intros H1 H2; sf_cases;
    cmp_facts; subst; try lia; try congruence.
Qed.

Lemma SFcompare_lt_eq_trans (x y z : spec_float) :
  SFcompare x y = Some Lt -> SFcompare y z = Some Eq -> SFcompare x z = Some Lt.
Proof.
  destruct x as [sx|sx| |sx mx ex], y as [sy|sy| |sy my ey],
    z as [sz|sz| |sz mz ez]; simpl; intros H1 H2; sf_cases;
    cmp_facts; subst; try lia; try congruence.
Qed.

Lemma SFcompare_antisym (x y : spec_float) (c : comparison) :
  SFcompare x y = Some c -> SFcompare y x = Some (CompOpp c).
Proof.
  destruct x as [sx|sx| |sx mx ex], y as [sy|sy| |sy my ey];
    simpl; intros H; sf_cases; try (injection H as <-; reflexivity);
    injection H as <-; f_equal;
    change (Pos.compare_cont Eq mx my) with (Pos.compare mx my);
    change (Pos.compare_cont Eq my mx) with (Pos.compare my mx);
    rewrite (Z.compare_antisym ey ex), (Pos.compare_antisym my mx);
    destruct (Z.compare ey ex); simpl; try reflexivity;
    destruct (Pos.compare my mx); reflexivity.
Qed.

Lemma ltb_irrefl (x : float) : (x <? x)%float = false.
Proof.
  rewrite FloatAxioms.ltb_spec. unfold SFltb.
  destruct (SFcompare (Prim2SF x) (Prim2SF x)) as [c|] eqn:E; [|reflexivity].
  pose proof (SFcompare_antisym _ _ E) as E'. rewrite E in E'.
  destruct c; try reflexivity; discriminate.
Qed.

Lemma ltb_asym (x y : float) : (x <? y)%float = true -> (y <? x)%float = false.
Proof.
  rewrite !FloatAxioms.ltb_spec. unfold SFltb.
  destruct (SFcompare (Prim2SF x) (Prim2SF y)) as [[ | | ]|] eqn:E; try discriminate.
  rewrite (SFcompare_antisym _ _ E). reflexivity.
Qed.

Lemma ltb_trans (x y z : float) :
  (x <? y)%float = true -> (y <? z)%float = true -> (x <? z)%float = true.
Proof.
  rewrite !FloatAxioms.ltb_spec. unfold SFltb.
  destruct (SFcompare (Prim2SF x) (Prim2SF y)) as [[ | | ]|] eqn:E1; try discriminate.
  destruct (SFcompare (Prim2SF y) (Prim2SF z)) as [[ | | ]|] eqn:E2; try discriminate.
  rewrite (SFcompare_lt_trans _ _ _ E1 E2). reflexivity.
Qed.

Lemma ltb_leb_trans (x y z : float) :
  (x <? y)%float = true -> (y <=? z)%float = true -> (x <? z)%float = true.
Proof.
  rewrite !FloatAxioms.ltb_spec, FloatAxioms.leb_spec. unfold SFltb, SFleb.
  destruct (SFcompare (Prim2SF x) (Prim2SF y)) as [[ | | ]|] eqn:E1; try discriminate.
  destruct (SFcompare (Prim2SF y) (Prim2SF z)) as [[ | | ]|] eqn:E2; try discriminate.
  - rewrite (SFcompare_lt_eq_trans _ _ _ E1 E2). reflexivity.
  - rewrite (SFcompare_lt_trans _ _ _ E1 E2). reflexivity.
Qed.

Lemma leb_not_ltb (x y : float) :
  (x <=? y)%float = true -> (y <? x)%float = false.
Proof.
  rewrite FloatAxioms.ltb_spec, FloatAxioms.leb_spec. unfold SFltb, SFleb.
  destruct (SFcompare (Prim2SF x) (Prim2SF y)) as [c|] eqn:E; try discriminate.
  rewrite (SFcompare_antisym _ _ E). destruct c; try discriminate; reflexivity.
Qed.

Lemma ltb_nan_r (x : float) : (x <? nan)%float = false.
Proof.
  rewrite FloatAxioms.ltb_spec. change (Prim2SF nan) with S754_nan.
  unfold SFltb, SFcompare. destruct (Prim2SF x); reflexivity.
Qed.

Lemma ltb_nan_l (x : float) : (nan <? x)%float = false.
Proof. rewrite FloatAxioms.ltb_spec. reflexivity. Qed.

(** * The best genome of the last generation *)

(** What the search loop has found after its last turn: either nothing
    exceeded [max], or the first genome that no other exceeds. *)
Lemma find_best_spec (n i : nat) (genomeList : list Genome) (maxIdx : Z)
    (max : float) (maxIdx' : Z) (max' : float) :
  find_best n i genomeList maxIdx max = Done (maxIdx', max') ->
  (maxIdx' = maxIdx /\ max' = max /\
   forall j gj, i <= j < i + n -> nth_error genomeList j = Some gj ->
                (max <? Fitness gj)%float = false) \/
  (exists k g,
     i <= k < i + n /\ maxIdx' = Z.of_nat k /\
     nth_error genomeList k = Some g /\ max' = Fitness g /\
     (max <? Fitness g)%float = true /\
     (forall j gj, i <= j < i + n -> nth_error genomeList j = Some gj ->
                   (Fitness g <? Fitness gj)%float = false) /\
     (forall j gj, i <= j < k -> nth_error genomeList j = Some gj ->
                   (Fitness g <=? Fitness gj)%float = false)).
Proof.
  revert i maxIdx max; induction n as [|n IH]; intros i maxIdx max H; simpl in H.
  - injection H as <- <-. left. split; [reflexivity|]. split; [reflexivity|].
    intros j gj Hj. lia.
  - destruct (vec_get genomeList i) as [gi| | |] eqn:Ei; simpl in H;
      try discriminate.
    apply vec_get_Done in Ei.
    destruct (max <? Fitness gi)%float eqn:C.
    + right. destruct (IH _ _ _ H) as [[-> [-> Hall]]|[k [g [Hk [-> [Eg [-> [Hlt [Hall Hties]]]]]]]]].
      * exists i, gi.
        split; [lia|]. split; [reflexivity|]. split; [exact Ei|].
        split; [reflexivity|]. split; [exact C|]. split.
        -- intros j gj Hj Ej. destruct (Nat.eq_dec j i) as [->|Hne].
           ++ rewrite Ei in Ej. injection Ej as <-. apply ltb_irrefl.
           ++ apply (Hall j); [lia|exact Ej].
        -- intros j gj Hj. lia.
      * exists k, g.
        split; [lia|]. split; [reflexivity|]. split; [exact Eg|].
        split; [reflexivity|]. split; [eapply ltb_trans; eassumption|]. split.
        -- intros j gj Hj Ej. destruct (Nat.eq_dec j i) as [->|Hne].
           ++ rewrite Ei in Ej. injection Ej as <-. apply ltb_asym. exact Hlt.
           ++ apply (Hall j); [lia|exact Ej].
        -- intros j gj Hj Ej. destruct (Nat.eq_dec j i) as [->|Hne].
           ++ rewrite Ei in Ej. injection Ej as <-.
              destruct (Fitness g <=? Fitness gi)%float eqn:Cle; [|reflexivity].
              apply leb_not_ltb in Cle. congruence.
           ++ apply (Hties j); [lia|exact Ej].
    + destruct (IH _ _ _ H) as [[-> [-> Hall]]|[k [g [Hk [-> [Eg [-> [Hlt [Hall Hties]]]]]]]]].
      * left. split; [reflexivity|]. split; [reflexivity|]. intros j gj Hj Ej.
        destruct (Nat.eq_dec j i) as [->|Hne].
        -- rewrite Ei in Ej. injection Ej as <-. exact C.
        -- apply (Hall j); [lia|exact Ej].
      * right. exists k, g.
        split; [lia|]. split; [reflexivity|]. split; [exact Eg|].
        split; [reflexivity|]. split; [exact Hlt|]. split.
        -- intros j gj Hj Ej. destruct (Nat.eq_dec j i) as [->|Hne].
           ++ rewrite Ei in Ej. injection Ej as <-.
              destruct (Fitness g <? Fitness gi)%float eqn:Clt; [|reflexivity].
              rewrite (ltb_trans Hlt Clt) in C. discriminate.
           ++ apply (Hall j); [lia|exact Ej].
        -- intros j gj Hj Ej. destruct (Nat.eq_dec j i) as [->|Hne].
           ++ rewrite Ei in Ej. injection Ej as <-.
              destruct (Fitness g <=? Fitness gi)%float eqn:Cle; [|reflexivity].
              rewrite (ltb_leb_trans Hlt Cle) in C. discriminate.
           ++ apply (Hties j); [lia|exact Ej].
Qed.

Lemma find_best_faults (n i : nat) (genomeList : list Genome) (maxIdx : Z)
    (max : float) :
  i <= length genomeList -> length genomeList < i + n ->
  find_best n i genomeList maxIdx max = OutOfBounds.
Proof.
  revert i maxIdx max; induction n as [|n IH]; intros i maxIdx max Hi H; simpl.
  - lia.
  - unfold vec_get. destruct (nth_error genomeList i) as [gi|] eqn:Ei; simpl;
      [|reflexivity].
    assert (i < length genomeList)
      by (apply nth_error_Some; rewrite Ei; discriminate).
    destruct (max <? Fitness gi)%float; apply IH; lia.
Qed.

Lemma find_best_cases (n i : nat) (genomeList : list Genome) (maxIdx : Z)
    (max : float) :
  (exists r, find_best n i genomeList maxIdx max = Done r) \/
  find_best n i genomeList maxIdx max = OutOfBounds.
Proof.
  revert i maxIdx max; induction n as [|n IH]; intros i maxIdx max; simpl.
  - left. eexists. reflexivity.
  - unfold vec_get. destruct (nth_error genomeList i) as [gi|]; simpl;
      [|right; reflexivity].
    destruct (max <? Fitness gi)%float; apply IH.
Qed.

Lemma vec_get_at_Done (A : Type) (v : list A) (i : Z) (x : A) :
  vec_get_at v i = Done x ->
  (0 <= i < Z.of_nat (length v))%Z /\ nth_error v (Z.to_nat i) = Some x.
Proof.
  unfold vec_get_at.
  destruct ((0 <=? i) && (i <? Z.of_nat (length v)))%Z eqn:C; [|discriminate].
  apply andb_prop in C. destruct C as [C1 C2].
  apply Z.leb_le in C1. apply Z.ltb_lt in C2.
  intros H. apply vec_get_Done in H. split; [lia|exact H].
Qed.

(** X1.  The genome [Train] returns is the first genome of the population
    that none exceeds in fitness: no genome of the first [popSize] has a
    greater fitness, and none before it has a fitness as great. *)
Theorem best_genome_first_maximal {TaskType : Type} (neat : NEAT TaskType)
    (g : Genome) :
  (Z.of_nat (length (genomeList neat)) < 2 ^ 64)%Z ->
  best_genome neat = Done g ->
  exists k,
    k < popSize neat /\ nth_error (genomeList neat) k = Some g /\
    (- DBL_MAX <? Fitness g)%float = true /\
    (forall j gj, j < popSize neat -> nth_error (genomeList neat) j = Some gj ->
                  (Fitness g <? Fitness gj)%float = false) /\
    (forall j gj, j < k -> nth_error (genomeList neat) j = Some gj ->
                  (Fitness g <=? Fitness gj)%float = false).
Proof.
  intros Hfit. unfold best_genome.
  destruct (find_best (popSize neat) 0 (genomeList neat) (2 ^ 64 - 1)%Z (- DBL_MAX)%float)
    as [[maxIdx max]| | |] eqn:E; simpl; try discriminate.
  intros H. apply vec_get_at_Done in H. destruct H as [Hr Hg].
  destruct (find_best_spec _ _ _ _ _ E) as [[-> _]|[k [g' [Hk [-> [Eg [_ [Hlt [Hall Hties]]]]]]]]].
  - lia.
  - rewrite Nat2Z.id in Hg. rewrite Eg in Hg. injection Hg as ->.
    exists k. repeat split; try lia; try assumption.
    + intros j gj Hj. apply Hall. lia.
    + intros j gj Hj. apply Hties. lia.
Qed.

Lemma best_genome_first_maximal_witness :
  best_genome (Ex2.populated [Ex.member 1; Ex.member 5; Ex.member 5; Ex.member 2] [])
    = Done (Ex.member 5) /\
  exists k,
    k < 4 /\
    nth_error [Ex.member 1; Ex.member 5; Ex.member 5; Ex.member 2] k
      = Some (Ex.member 5) /\
    (forall j gj, j < k ->
       nth_error [Ex.member 1; Ex.member 5; Ex.member 5; Ex.member 2] j = Some gj ->
       (Fitness (Ex.member 5) <=? Fitness gj)%float = false).
Proof.
  assert (H : best_genome
                (Ex2.populated [Ex.member 1; Ex.member 5; Ex.member 5; Ex.member 2] [])
              = Done (Ex.member 5)) by (vm_compute; reflexivity).
  split; [exact H|].
  assert (Hfit : (Z.of_nat (length (genomeList
            (Ex2.populated [Ex.member 1; Ex.member 5; Ex.member 5; Ex.member 2] [])))
            < 2 ^ 64)%Z) by (simpl; lia).
  destruct (best_genome_first_maximal _ Hfit H) as [k [Hk [Eg [_ [_ Hties]]]]].
  exists k. split; [exact Hk|]. split; [exact Eg|exact Hties].
Defined.

(** X2.  When no genome of the population has a fitness above [-DBL_MAX]
    (an empty population, or fitnesses that are all NaN or minus infinity),
    [maxIdx] keeps the value [size_t(-1)] and [Train] returns
    [genomeList[maxIdx]], an element the vector does not have. *)
Theorem best_genome_none_exceeds {TaskType : Type} (neat : NEAT TaskType) :
  (Z.of_nat (length (genomeList neat)) < 2 ^ 64)%Z ->
  (forall g, In g (genomeList neat) -> (- DBL_MAX <? Fitness g)%float = false) ->
  best_genome neat = OutOfBounds.
Proof.
  intros Hfit Hnone. unfold best_genome.
  destruct (find_best (popSize neat) 0 (genomeList neat) (2 ^ 64 - 1)%Z (- DBL_MAX)%float)
    as [[maxIdx max]| | |] eqn:E; simpl; try reflexivity.
  - destruct (find_best_spec _ _ _ _ _ E) as [[-> _]|[k [g' [_ [_ [Eg [_ [Hlt _]]]]]]]].
    + unfold vec_get_at.
      destruct (2 ^ 64 - 1 <? Z.of_nat (length (genomeList neat)))%Z eqn:C;
        [apply Z.ltb_lt in C; lia|].
      rewrite andb_false_r. reflexivity.
    + apply nth_error_In in Eg. rewrite (Hnone _ Eg) in Hlt. discriminate.
  - destruct (find_best_cases (popSize neat) 0 (genomeList neat) (2 ^ 64 - 1)%Z
                (- DBL_MAX)%float) as [[r Hr]|Hr]; congruence.
  - destruct (find_best_cases (popSize neat) 0 (genomeList neat) (2 ^ 64 - 1)%Z
                (- DBL_MAX)%float) as [[r Hr]|Hr]; congruence.
Qed.

Lemma best_genome_none_exceeds_witness :
  best_genome (Ex2.populated [Ex.member nan; Ex.member neg_infinity] []) = OutOfBounds.
Proof.
  apply (@best_genome_none_exceeds unit
           (Ex2.populated [Ex.member nan; Ex.member neg_infinity] [])).
  - simpl. lia.
  - intros g [<-|[<-|[]]]; vm_compute; reflexivity.
Defined.

(** * The order [compareGenome] sorts by *)

(** X3.  [compareGenome] is a strict order on genomes, by decreasing fitness:
    it is transitive, and a genome that comes before another does not come
    after it, nor before itself. *)
Theorem compareGenome_strict (a b c : Genome) :
  compareGenome a b = true -> compareGenome b c = true ->
  compareGenome a c = true /\ compareGenome b a = false /\
  compareGenome a a = false.
Proof.
  unfold compareGenome. intros Hab Hbc. split; [|split].
  - eapply ltb_trans; eassumption.
  - apply ltb_asym. exact Hab.
  - apply ltb_irrefl.
Qed.

Lemma compareGenome_strict_witness :
  compareGenome (Ex.member 5) (Ex.member 1) = true /\
  compareGenome (Ex.member 1) (Ex.member 5) = false /\
  compareGenome (Ex.member 5) (Ex.member 5) = false.
Proof.
  apply (@compareGenome_strict (Ex.member 5) (Ex.member 2) (Ex.member 1));
    vm_compute; reflexivity.
Defined.

(** * Inheritance in the fitter-parent branch *)

Lemma inherited_refl (less : list ConnectionGene) (g : ConnectionGene) :
  inherited less g g.
Proof. unfold inherited. repeat split; left; reflexivity. Qed.

Lemma inherited_trans (less : list ConnectionGene) (g g' g'' : ConnectionGene) :
  inherited less g g' -> inherited less g' g'' -> inherited less g g''.
Proof.
  intros [Hi [Hs [Ht [Hw He]]]] [Hi' [Hs' [Ht' [Hw' He']]]].
  unfold inherited. rewrite Hi', Hs', Ht'.
  split; [exact Hi|]. split; [exact Hs|]. split; [exact Ht|]. split.
  - destruct Hw' as [Hw'|[l [Hl [Hil Hwl]]]].
    + rewrite Hw'. exact Hw.
    + right. exists l. rewrite <- Hi. auto.
  - destruct He' as [He'|[l [Hl [Hil Hel]]]].
    + rewrite He'. exact He.
    + destruct Hel as [Hel|Hel].
      * destruct He as [He|He]; [|right; exact He].
        right. exists l. rewrite <- Hi. rewrite <- He. auto.
      * right. exists l. rewrite <- Hi. auto.
Qed.

Lemma Forall2_inherited_refl (less genes : list ConnectionGene) :
  Forall2 (inherited less) genes genes.
Proof. induction genes; constructor; [apply inherited_refl|assumption]. Qed.

Lemma Forall2_inherited_trans (less l1 l2 l3 : list ConnectionGene) :
  Forall2 (inherited less) l1 l2 -> Forall2 (inherited less) l2 l3 ->
  Forall2 (inherited less) l1 l3.
Proof.
  intros H; revert l3; induction H as [|a b l1 l2 Hab _ IH]; intros l3 H3;
    inversion H3; subst; constructor.
  - eapply inherited_trans; eassumption.
  - apply IH. assumption.
Qed.

(** A base gene whose ID the other parent lacks is inherited as it is. *)
Lemma inherited_unmatched (less : list ConnectionGene) (g g' : ConnectionGene) :
  inherited less g g' ->
  (forall l, In l less -> InnovationID l <> InnovationID g) ->
  g' = g.
Proof.
  intros [Hi [Hs [Ht [Hw He]]]] Hno.
  assert (Hw' : Weight g' = Weight g)
    by (destruct Hw as [Hw|[l [Hl [Hil _]]]]; [exact Hw|destruct (Hno l Hl Hil)]).
  assert (He' : Enabled g' = Enabled g)
    by (destruct He as [He|[l [Hl [Hil _]]]]; [exact He|destruct (Hno l Hl Hil)]).
  destruct g, g'; simpl in *; congruence.
Qed.

(** A gene enabled in the base and in every matching gene of the other
    parent is enabled in the child. *)
Lemma inherited_enabled (less : list ConnectionGene) (g g' : ConnectionGene) :
  inherited less g g' ->
  Enabled g = true ->
  (forall l, In l less -> InnovationID l = InnovationID g -> Enabled l = true) ->
  Enabled g' = true.
Proof.
  intros [_ [_ [_ [_ He]]]] Hg Hall.
  destruct He as [He|[l [Hl [Hil [Hf|Hf]]]]]; try congruence.
  rewrite (Hall l Hl Hil) in Hf. discriminate.
Qed.

Section Inheritance.

Variable disableProb : float.
Variable rnd : nat -> float.
Variable less : list ConnectionGene.

Lemma inherit_match_inherited (lessGene g : ConnectionGene) (pos : nat) :
  In lessGene less -> InnovationID lessGene = InnovationID g ->
  inherited less g (fst (inherit_match disableProb rnd lessGene g pos)).
Proof.
  intros Hin Hid. unfold inherit_match.
  destruct (negb (Enabled g) || negb (Enabled lessGene)) eqn:C.
  - assert (Hd : Enabled g = false \/ Enabled lessGene = false).
    { apply orb_prop in C. destruct C as [C|C]; apply negb_true_iff in C; auto. }
    destruct (rnd (S pos) <? 0.5)%float; simpl; unfold inherited; simpl;
      repeat split; eauto 10.
  - destruct (rnd pos <? 0.5)%float; simpl; unfold inherited; simpl;
      repeat split; eauto 10.
Qed.

Lemma match_from_inherited (lessGene : ConnectionGene)
    (cands cands' : list ConnectionGene) (j j' pos pos' : nat) :
  In lessGene less ->
  match_from disableProb rnd lessGene cands j pos = Some (cands', j', pos') ->
  Forall2 (inherited less) cands cands'.
Proof.
  intros Hin. revert cands' j j' pos'; induction cands as [|g rest IH];
    intros cands' j j' pos' H; simpl in H; [discriminate|].
  destruct (InnovationID lessGene =? InnovationID g) eqn:C.
  - apply Nat.eqb_eq in C.
    pose proof (@inherit_match_inherited lessGene g pos Hin C) as Hg.
    destruct (inherit_match disableProb rnd lessGene g pos) as [g' p'].
    injection H as <- _ _. constructor; [exact Hg|apply Forall2_inherited_refl].
  - destruct (match_from disableProb rnd lessGene rest (S j) pos)
      as [[[rest' j0] p0]|] eqn:E; [|discriminate].
    injection H as <- _ _. constructor; [apply inherited_refl|].
    eapply IH. exact E.
Qed.

Lemma find_matching_inherited (genes new : list ConnectionGene) (k pos : nat) :
  incl genes less ->
  Forall2 (inherited less) new
    (fst (find_matching disableProb rnd genes new k pos)).
Proof.
  revert new k pos; induction genes as [|lessGene genes IH]; intros new k pos Hin;
    simpl; [apply Forall2_inherited_refl|].
  assert (Hl : In lessGene less) by (apply Hin; left; reflexivity).
  assert (Hrest : incl genes less) by (intros x Hx; apply Hin; right; exact Hx).
  destruct (match_from disableProb rnd lessGene (skipn k new) k pos)
    as [[[cands' j] pos']|] eqn:E.
  - eapply Forall2_inherited_trans; [|apply IH; exact Hrest].
    rewrite <- (firstn_skipn k new) at 1.
    apply Forall2_app; [apply Forall2_inherited_refl|].
    eapply match_from_inherited; eassumption.
  - apply IH. exact Hrest.
Qed.

End Inheritance.

Lemma Forall2_inherited_unmatched (less base child : list ConnectionGene) :
  Forall2 (inherited less) base child ->
  forall c, In c base ->
            (forall l, In l less -> InnovationID l <> InnovationID c) ->
            In c child.
Proof.
  induction 1 as [|g g' base child Hg _ IH]; intros c Hc Hno; [destruct Hc|].
  destruct Hc as [<-|Hc].
  - left. apply (inherited_unmatched Hg Hno).
  - right. apply IH; assumption.
Qed.

Section FitterParentInherits.

Context {TaskType : Type}.
Variable neat : NEAT TaskType.
Variable rnd : nat -> float.

Lemma fitter_parent_branch_inherits (equalFitness : bool) (g1 g2 : Genome)
    (pos : nat) :
  exists base less,
    ((base = g1 /\ less = g2) \/ (base = g2 /\ less = g1)) /\
    (equalFitness = false ->
     base = if (Fitness g2 <? Fitness g1)%float then g1 else g2) /\
    let '(child, fr) :=
      fitter_parent_branch neat rnd equalFitness (enter g1 g2 pos) in
    Forall2 (inherited (connectionGeneList less)) (connectionGeneList base)
      (connectionGeneList child) /\
    nodeDepths child = (if isAcyclic neat then nodeDepths base else []).
Proof.
  unfold fitter_parent_branch.
  set (fr0 := set_lessFitGenome (gen1 (enter g1 g2 pos)) (enter g1 g2 pos)).
  assert (Hbase : forall base less p,
    let fr := take_base base less (set_rngPos p fr0) in
    let '(child, fr') :=
      (let '(new, pos0) :=
         find_matching (disableProb neat) rnd
           (connectionGeneList (lessFitGenome fr)) (newConnGeneList fr) 0
           (rngPos fr) in
       let fr1 := set_rngPos pos0 (set_newConnGeneList new fr) in
       if isAcyclic neat
       then (Genome_acyclic (newConnGeneList fr1) (fr_nodeDepths fr1)
               (nextNodeID fr1) (paramsOf neat), fr1)
       else (Genome_cyclic (newConnGeneList fr1) (nextNodeID fr1)
               (paramsOf neat), fr1)) in
    Forall2 (inherited (connectionGeneList (deref fr0 less)))
      (connectionGeneList (deref fr0 base)) (connectionGeneList child) /\
    nodeDepths child
      = (if isAcyclic neat then nodeDepths (deref fr0 base) else [])).
  { intros base less p. cbv zeta.
    pose proof (@find_matching_inherited (disableProb neat) rnd
                  (connectionGeneList (lessFitGenome (take_base base less (set_rngPos p fr0))))
                  (connectionGeneList (lessFitGenome (take_base base less (set_rngPos p fr0))))
                  (newConnGeneList (take_base base less (set_rngPos p fr0))) 0
                  (rngPos (take_base base less (set_rngPos p fr0)))
                  (incl_refl _)) as Hs.
    destruct (find_matching _ _ _ _ _ _) as [new pos0]. simpl in Hs.
    destruct (isAcyclic neat); simpl; split; try reflexivity;
      destruct base, less; exact Hs. }
  destruct equalFitness.
  - unfold randu. cbv zeta. change (rngPos fr0) with pos.
    destruct (rnd pos <? 0.5)%float.
    + exists g1, g2. split; [left; split; reflexivity|]. split; [discriminate|].
      apply (Hbase ref_gen1 ref_gen2 (S pos)).
    + exists g2, g1. split; [right; split; reflexivity|]. split; [discriminate|].
      apply (Hbase ref_gen2 ref_gen1 (S pos)).
  - change (Fitness (gen2 fr0)) with (Fitness g2).
    change (Fitness (gen1 fr0)) with (Fitness g1).
    destruct (Fitness g2 <? Fitness g1)%float.
    + exists g1, g2. split; [left; split; reflexivity|]. split; [reflexivity|].
      apply (Hbase ref_gen1 ref_gen2 pos).
    + exists g2, g1. split; [right; split; reflexivity|]. split; [reflexivity|].
      apply (Hbase ref_gen2 ref_gen1 pos).
Qed.

End FitterParentInherits.

(** X4.  In the fitter-parent branch (fitnesses differ, or the run is
    acyclic) the child is its base parent gene by gene: each child gene has
    the innovation ID and ends of the base gene at the same place, its weight
    is the base's or that of a gene of the other parent with the same ID, and
    its enabled flag is redrawn only when such a gene exists and one of the
    two copies is disabled; a base gene whose ID the other parent lacks is
    in the child unchanged; the node depths are the base's in acyclic mode
    and empty otherwise. *)
Theorem Crossover_fitter_parent_inherits {TaskType : Type} (neat : NEAT TaskType)
    (rnd : nat -> float) (fuel : nat) (g1 g2 : Genome) (pos : nat) :
  negb (abs (Fitness g1 - Fitness g2) <? fitness_tolerance)%float
    || isAcyclic neat = true ->
  exists child fr base less,
    Crossover neat rnd fuel g1 g2 pos = Done (child, fr) /\
    ((base = g1 /\ less = g2) \/ (base = g2 /\ less = g1)) /\
    ((abs (Fitness g1 - Fitness g2) <? fitness_tolerance)%float = false ->
     base = if (Fitness g2 <? Fitness g1)%float then g1 else g2) /\
    Forall2 (inherited (connectionGeneList less)) (connectionGeneList base)
      (connectionGeneList child) /\
    (forall c, In c (connectionGeneList base) ->
       (forall l, In l (connectionGeneList less) ->
                  InnovationID l <> InnovationID c) ->
       In c (connectionGeneList child)) /\
    nodeDepths child = (if isAcyclic neat then nodeDepths base else []).
Proof.
  intros Hc. unfold Crossover. cbv zeta.
  change (Fitness (gen1 (enter g1 g2 pos))) with (Fitness g1).
  change (Fitness (gen2 (enter g1 g2 pos))) with (Fitness g2).
  rewrite Hc.
  destruct (fitter_parent_branch_inherits neat rnd
              (abs (Fitness g1 - Fitness g2) <? fitness_tolerance)%float g1 g2 pos)
    as [base [less [Hb [Hf H]]]].
  destruct (fitter_parent_branch neat rnd _ (enter g1 g2 pos)) as [child fr].
  destruct H as [Hall Hd].
  exists child, fr, base, less.
  split; [reflexivity|]. split; [exact Hb|]. split; [exact Hf|].
  split; [exact Hall|]. split; [|exact Hd].
  apply Forall2_inherited_unmatched. exact Hall.
Qed.

Lemma Crossover_fitter_parent_inherits_witness :
  exists child fr base less,
    Crossover (Ex.engine 10 []) Ex.draws 10 Ex.narrow Ex.wide 0 = Done (child, fr) /\
    ((base = Ex.narrow /\ less = Ex.wide) \/ (base = Ex.wide /\ less = Ex.narrow)) /\
    Forall2 (inherited (connectionGeneList less)) (connectionGeneList base)
      (connectionGeneList child).
Proof.
  assert (Hc : negb (abs (Fitness Ex.narrow - Fitness Ex.wide) <? fitness_tolerance)%float
               || isAcyclic (Ex.engine 10 []) = true) by (vm_compute; reflexivity).
  destruct (Crossover_fitter_parent_inherits (Ex.engine 10 []) Ex.draws 10
              Ex.narrow Ex.wide 0 Hc)
    as [child [fr [base [less [H [Hb [_ [Hall _]]]]]]]].
  exists child, fr, base, less. split; [exact H|]. split; [exact Hb|exact Hall].
Defined.

(** * More on the gene-merge branch *)

Section MergeMore.

Variable rnd : nat -> float.

(** Merging a gene list with itself copies it, whatever the draws. *)
Lemma merge_aligned_same (genes : list ConnectionGene) (fuel i : nat)
    (new : list ConnectionGene) (pos : nat) :
  i <= length genes -> length genes - i < fuel ->
  merge_aligned rnd fuel genes genes i i new pos
    = Done (new ++ skipn i genes, length genes, pos + (length genes - i)).
Proof.
  revert i new pos; induction fuel as [|fuel IH]; intros i new pos Hi Hf; simpl;
    [lia|].
  destruct (i <? length genes) eqn:C.
  - apply Nat.ltb_lt in C.
    destruct (nth_error genes i) as [g|] eqn:E;
      [|apply nth_error_None in E; lia].
    unfold vec_get. rewrite E. simpl.
    rewrite Nat.ltb_irrefl, Nat.eqb_refl.
    rewrite IH by lia.
    rewrite (nth_error_skipn_cons _ _ E).
    replace (if (rnd pos <? 0.5)%float then g else g) with g
      by (destruct (rnd pos <? 0.5)%float; reflexivity).
    rewrite <- app_assoc. simpl. f_equal. f_equal. lia.
  - apply Nat.ltb_ge in C. assert (i = length genes) by lia. subst i.
    rewrite skipn_all, app_nil_r. f_equal. f_equal. lia.
Qed.

(** Every gene passed by a cursor has left its innovation ID in the list
    built. *)
Lemma merge_aligned_covers (maxGenes minGenes : list ConnectionGene)
    (fuel i j : nat) (new : list ConnectionGene) (pos : nat)
    (new' : list ConnectionGene) (i' pos' : nat) :
  merge_aligned rnd fuel maxGenes minGenes i j new pos = Done (new', i', pos') ->
  (forall x, In x (innovations new) -> In x (innovations new')) /\
  (forall k c, j <= k -> nth_error minGenes k = Some c ->
               In (InnovationID c) (innovations new')) /\
  (forall k c, i <= k < i' -> nth_error maxGenes k = Some c ->
               In (InnovationID c) (innovations new')).
Proof.
  revert i j new pos; induction fuel as [|fuel IH]; intros i j new pos H;
    simpl in H; [discriminate|].
  destruct (j <? length minGenes) eqn:Cj.
  2:{ injection H as <- <- _. apply Nat.ltb_ge in Cj.
      split; [auto|]. split.
      - intros k c Hk Ek.
        assert (k < length minGenes) by (apply nth_error_Some; congruence). lia.
      - intros k c Hk. lia. }
  destruct (vec_get maxGenes i) as [g1| | |] eqn:E1; simpl in H; try discriminate.
  destruct (vec_get minGenes j) as [g2| | |] eqn:E2; simpl in H; try discriminate.
  apply vec_get_Done in E1. apply vec_get_Done in E2.
  assert (Hsnoc : forall g (l : list ConnectionGene) x,
             In x (innovations l) \/ x = InnovationID g ->
             In x (innovations (l ++ [g]))).
  { intros g l x Hx. unfold innovations. rewrite map_app. apply in_or_app.
    destruct Hx as [Hx| ->]; [left; exact Hx|right; left; reflexivity]. }
  destruct (InnovationID g2 <? InnovationID g1).
  - destruct (rnd pos <? 0.5)%float.
    + destruct (IH _ _ _ _ H) as [Hn [Hmin Hmax]].
      split; [intros x Hx; apply Hn, Hsnoc; left; exact Hx|]. split; [|exact Hmax].
      intros k c Hk Ek. destruct (Nat.eq_dec k j) as [->|Hne].
      * rewrite E2 in Ek. injection Ek as <-. apply Hn, Hsnoc. right. reflexivity.
      * apply (Hmin k); [lia|exact Ek].
    + exact (IH _ _ _ _ H).
  - destruct (InnovationID g2 =? InnovationID g1) eqn:Ceq.
    + apply Nat.eqb_eq in Ceq.
      destruct (IH _ _ _ _ H) as [Hn [Hmin Hmax]].
      assert (Hboth : In (InnovationID g1) (innovations new')).
      { apply Hn, Hsnoc. right.
        destruct (rnd pos <? 0.5)%float; [symmetry; exact Ceq|reflexivity]. }
      split; [intros x Hx; apply Hn, Hsnoc; left; exact Hx|]. split.
      * intros k c Hk Ek. destruct (Nat.eq_dec k j) as [->|Hne].
        -- rewrite E2 in Ek. injection Ek as <-. rewrite Ceq. exact Hboth.
        -- apply (Hmin k); [lia|exact Ek].
      * intros k c Hk Ek. destruct (Nat.eq_dec k i) as [->|Hne].
        -- rewrite E1 in Ek. injection Ek as <-. exact Hboth.
        -- apply (Hmax k); [lia|exact Ek].
    + destruct (rnd pos <? 0.5)%float.
      * destruct (IH _ _ _ _ H) as [Hn [Hmin Hmax]].
        split; [intros x Hx; apply Hn, Hsnoc; left; exact Hx|].
        split; [exact Hmin|].
        intros k c Hk Ek. destruct (Nat.eq_dec k i) as [->|Hne].
        -- rewrite E1 in Ek. injection Ek as <-. apply Hn, Hsnoc. right. reflexivity.
        -- apply (Hmax k); [lia|exact Ek].
      * exact (IH _ _ _ _ H).
Qed.

Lemma merge_rest_covers (maxGenes : list ConnectionGene) (fuel i : nat)
    (new : list ConnectionGene) (pos : nat) (new' : list ConnectionGene)
    (pos' : nat) :
  merge_rest rnd fuel maxGenes i new pos = Done (new', pos') ->
  (forall x, In x (innovations new) -> In x (innovations new')) /\
  (forall k c, i <= k -> nth_error maxGenes k = Some c ->
               In (InnovationID c) (innovations new')).
Proof.
  revert i new pos; induction fuel as [|fuel IH]; intros i new pos H;
    simpl in H; [discriminate|].
  destruct (i <? length maxGenes) eqn:Ci.
  2:{ injection H as <- _. apply Nat.ltb_ge in Ci. split; [auto|].
      intros k c Hk Ek.
      assert (k < length maxGenes) by (apply nth_error_Some; congruence). lia. }
  destruct (rnd pos <? 0.5)%float.
  - destruct (vec_get maxGenes i) as [g1| | |] eqn:E1; simpl in H; try discriminate.
    apply vec_get_Done in E1.
    destruct (IH _ _ _ H) as [Hn Hmax].
    assert (Hg : forall x, In x (innovations new) \/ x = InnovationID g1 ->
                           In x (innovations new')).
    { intros x Hx. apply Hn. unfold innovations. rewrite map_app. apply in_or_app.
      destruct Hx as [Hx| ->]; [left; exact Hx|right; left; reflexivity]. }
    split; [intros x Hx; apply Hg; left; exact Hx|].
    intros k c Hk Ek. destruct (Nat.eq_dec k i) as [->|Hne].
    + rewrite E1 in Ek. injection Ek as <-. apply Hg. right. reflexivity.
    + apply (Hmax k); [lia|exact Ek].
  - exact (IH _ _ _ H).
Qed.

(** When the last gene of the shorter list is newer than every gene of the
    longer one, the first loop cannot pass it. *)
Lemma merge_aligned_stuck (maxGenes front : list ConnectionGene)
    (last : ConnectionGene) (fuel i j : nat) (new : list ConnectionGene)
    (pos : nat) :
  (forall c, In c maxGenes -> InnovationID c < InnovationID last) ->
  j <= length front ->
  is_done (merge_aligned rnd fuel maxGenes (front ++ [last]) i j new pos) = false.
Proof.
  intros Hnew. revert i j new pos; induction fuel as [|fuel IH];
    intros i j new pos Hj; simpl; [reflexivity|].
  rewrite length_app. simpl.
  destruct (j <? length front + 1) eqn:Cj; [|apply Nat.ltb_ge in Cj; lia].
  destruct (vec_get maxGenes i) as [g1| | |] eqn:E1; simpl; try reflexivity.
  destruct (vec_get (front ++ [last]) j) as [g2| | |] eqn:E2; simpl;
    try reflexivity.
  pose proof (Hnew _ (vec_get_In _ _ E1)) as Hlt.
  apply vec_get_Done in E2.
  assert (Hlast : j = length front -> g2 = last).
  { intros ->. rewrite nth_error_app2 in E2 by lia.
    rewrite Nat.sub_diag in E2. simpl in E2. congruence. }
  destruct (InnovationID g2 <? InnovationID g1) eqn:C1.
  - apply Nat.ltb_lt in C1. destruct (rnd pos <? 0.5)%float; apply IH; try lia.
    destruct (Nat.eq_dec j (length front)) as [Hje|Hje]; [|lia].
    rewrite (Hlast Hje) in C1. lia.
  - destruct (InnovationID g2 =? InnovationID g1) eqn:C2.
    + apply Nat.eqb_eq in C2. apply IH.
      destruct (Nat.eq_dec j (length front)) as [Hje|Hje]; [|lia].
      rewrite (Hlast Hje) in C2. lia.
    + destruct (rnd pos <? 0.5)%float; apply IH; lia.
Qed.

End MergeMore.

Section MergeBranchMore.

Context {TaskType : Type}.
Variable neat : NEAT TaskType.
Variable rnd : nat -> float.

(** The gene-merge branch, with the two references resolved. *)
Lemma gene_merge_branch_unfold (fuel : nat) (g1 g2 : Genome) (pos : nat) :
  gene_merge_branch neat rnd fuel (enter g1 g2 pos) =
  let gen1size := length (connectionGeneList g1) in
  let gen2size := length (connectionGeneList g2) in
  let maxGenes :=
    if gen2size <? gen1size then connectionGeneList g1 else connectionGeneList g2 in
  let minGenes :=
    if gen1size <? gen2size then connectionGeneList g1 else connectionGeneList g2 in
  '(new, i, p) <- merge_aligned rnd fuel maxGenes minGenes 0 0 [] pos ;;
  '(new, p) <- merge_rest rnd fuel maxGenes i new p ;;
  Done (Genome_cyclic new
          (if getNodeCount g2 <? getNodeCount g1
           then getNodeCount g1 else getNodeCount g2) (paramsOf neat),
        mkFrame g1 g2 new g1 []
          (if getNodeCount g2 <? getNodeCount g1
           then getNodeCount g1 else getNodeCount g2) p).
Proof.
  unfold gene_merge_branch. cbv zeta. simpl.
  destruct (length (connectionGeneList g2) <? length (connectionGeneList g1));
    destruct (length (connectionGeneList g1) <? length (connectionGeneList g2));
    reflexivity.
Qed.

Lemma Crossover_merge_unfold (fuel : nat) (g1 g2 : Genome) (pos : nat) :
  negb (abs (Fitness g1 - Fitness g2) <? fitness_tolerance)%float
    || isAcyclic neat = false ->
  Crossover neat rnd fuel g1 g2 pos
    = gene_merge_branch neat rnd fuel (enter g1 g2 pos).
Proof.
  intros Hc. unfold Crossover. cbv zeta.
  change (Fitness (gen1 (enter g1 g2 pos))) with (Fitness g1).
  change (Fitness (gen2 (enter g1 g2 pos))) with (Fitness g2).
  rewrite Hc. reflexivity.
Qed.

Lemma max_by_ltb (a b : nat) : (if b <? a then a else b) = Nat.max a b.
Proof.
  destruct (b <? a) eqn:C; [apply Nat.ltb_lt in C|apply Nat.ltb_ge in C]; lia.
Qed.

End MergeBranchMore.

(** X5.  Two parents of equal fitness with equally many genes, cycles
    allowed: both references [maxGenome] and [minGenome] are bound to [gen2],
    so the child is a copy of the genes of [gen2] (with the larger node
    count), whatever the draws and whatever genes [gen1] has; one draw is
    used per gene. *)
Theorem Crossover_equal_sizes_copies_gen2 {TaskType : Type} (neat : NEAT TaskType)
    (rnd : nat -> float) (fuel : nat) (g1 g2 : Genome) (pos : nat) :
  negb (abs (Fitness g1 - Fitness g2) <? fitness_tolerance)%float
    || isAcyclic neat = false ->
  length (connectionGeneList g1) = length (connectionGeneList g2) ->
  length (connectionGeneList g2) < fuel ->
  exists fr,
    Crossover neat rnd fuel g1 g2 pos
      = Done (Genome_cyclic (connectionGeneList g2)
                (Nat.max (getNodeCount g1) (getNodeCount g2)) (paramsOf neat), fr) /\
    rngPos fr = pos + length (connectionGeneList g2).
Proof.
  intros Hc Hlen Hf.
  rewrite (Crossover_merge_unfold neat rnd fuel g1 g2 pos Hc).
  rewrite gene_merge_branch_unfold. cbv zeta.
  rewrite Hlen, Nat.ltb_irrefl.
  rewrite merge_aligned_same by lia. simpl.
  destruct fuel as [|fuel]; [lia|]. simpl.
  rewrite Nat.ltb_irrefl. simpl. rewrite max_by_ltb.
  eexists. split; [reflexivity|]. simpl. lia.
Qed.

Lemma Crossover_equal_sizes_copies_gen2_witness :
  exists fr,
    Crossover (Ex.engine 10 []) Ex.draws 10 (set_Fitness 1 Ex.narrow) Ex.twin 0
      = Done (Genome_cyclic (connectionGeneList Ex.twin) 4
                (paramsOf (Ex.engine 10 [])), fr) /\
    rngPos fr = 3.
Proof.
  apply (@Crossover_equal_sizes_copies_gen2 unit (Ex.engine 10 []) Ex.draws 10
           (set_Fitness 1 Ex.narrow) Ex.twin 0).
  - vm_compute. reflexivity.
  - reflexivity.
  - simpl. lia.
Defined.

(** X6.  Two parents of equal fitness with different numbers of genes,
    cycles allowed: whenever the gene-merge branch returns, the child holds
    exactly the innovation IDs of the two parents; no gene is left out, since
    a rejected draw does not move the cursor. *)
Theorem Crossover_merge_keeps_every_innovation {TaskType : Type}
    (neat : NEAT TaskType) (rnd : nat -> float) (fuel : nat) (g1 g2 : Genome)
    (pos : nat) (child : Genome) (fr : CrossoverFrame) :
  negb (abs (Fitness g1 - Fitness g2) <? fitness_tolerance)%float
    || isAcyclic neat = false ->
  length (connectionGeneList g1) <> length (connectionGeneList g2) ->
  Crossover neat rnd fuel g1 g2 pos = Done (child, fr) ->
  forall x,
    In x (innovations (connectionGeneList child)) <->
    In x (innovations (connectionGeneList g1)) \/
    In x (innovations (connectionGeneList g2)).
Proof.
  intros Hc Hlen H x.
  rewrite (Crossover_merge_unfold neat rnd fuel g1 g2 pos Hc) in H.
  split.
  - intros Hx. apply gene_merge_branch_spec in H.
    destruct H as [_ [_ [_ [Hin _]]]].
    unfold innovations in *. apply in_map_iff in Hx. destruct Hx as [c [<- Hc']].
    destruct (Hin c Hc'); [left|right]; apply in_map; assumption.
  - rewrite gene_merge_branch_unfold in H. cbv zeta in H.
    set (maxGenes := if length (connectionGeneList g2) <? length (connectionGeneList g1)
                     then connectionGeneList g1 else connectionGeneList g2) in *.
    set (minGenes := if length (connectionGeneList g1) <? length (connectionGeneList g2)
                     then connectionGeneList g1 else connectionGeneList g2) in *.
    destruct (merge_aligned rnd fuel maxGenes minGenes 0 0 [] pos)
      as [[[new i] p1]| | |] eqn:E1; simpl in H; try discriminate.
    destruct (merge_rest rnd fuel maxGenes i new p1)
      as [[new' p2]| | |] eqn:E2; simpl in H; try discriminate.
    injection H as <- _. simpl.
    edestruct merge_aligned_covers as [_ [Hmin Hmax]]; [exact E1|].
    edestruct merge_rest_covers as [Hn Hrest]; [exact E2|].
    assert (Hall_max : forall y, In y (innovations maxGenes) -> In y (innovations new')).
    { intros y Hy. unfold innovations in Hy. apply in_map_iff in Hy.
      destruct Hy as [c [<- Hc']]. apply In_nth_error in Hc'. destruct Hc' as [k Ek].
      destruct (Nat.lt_ge_cases k i) as [Hk|Hk].
      - apply Hn. apply (Hmax k); [lia|exact Ek].
      - apply (Hrest k); [lia|exact Ek]. }
    assert (Hall_min : forall y, In y (innovations minGenes) -> In y (innovations new')).
    { intros y Hy. unfold innovations in Hy. apply in_map_iff in Hy.
      destruct Hy as [c [<- Hc']]. apply In_nth_error in Hc'. destruct Hc' as [k Ek].
      apply Hn. apply (Hmin k); [lia|exact Ek]. }
    subst maxGenes minGenes.
    destruct (length (connectionGeneList g2) <? length (connectionGeneList g1)) eqn:C1;
      destruct (length (connectionGeneList g1) <? length (connectionGeneList g2)) eqn:C2;
      try (apply Nat.ltb_ge in C1; apply Nat.ltb_ge in C2; lia);
      intros [Hx|Hx]; auto.
    apply Nat.ltb_lt in C1. apply Nat.ltb_lt in C2. lia.
Qed.

Lemma Crossover_merge_keeps_every_innovation_witness :
  exists child fr,
    Crossover (Ex.engine 10 []) Ex.draws 20 Ex.twin Ex.wide 0 = Done (child, fr) /\
    forall x,
      In x (innovations (connectionGeneList child)) <->
      In x (innovations (connectionGeneList Ex.twin)) \/
      In x (innovations (connectionGeneList Ex.wide)).
Proof.
  assert (H : { r | Crossover (Ex.engine 10 []) Ex.draws 20 Ex.twin Ex.wide 0 = Done r }).
  { eexists. vm_compute. reflexivity. }
  destruct H as [[child fr] H].
  exists child, fr. split; [exact H|].
  apply (@Crossover_merge_keeps_every_innovation unit (Ex.engine 10 []) Ex.draws 20
           Ex.twin Ex.wide 0 child fr).
  - vm_compute. reflexivity.
  - simpl. lia.
  - exact H.
Defined.

Lemma merge_aligned_not_undefined (rnd : nat -> float)
    (maxGenes minGenes : list ConnectionGene) (fuel i j : nat)
    (new : list ConnectionGene) (pos : nat) :
  merge_aligned rnd fuel maxGenes minGenes i j new pos <> Undefined.
Proof.
  revert i j new pos; induction fuel as [|fuel IH]; intros i j new pos; simpl;
    [discriminate|].
  destruct (j <? length minGenes); [|discriminate].
  unfold vec_get.
  destruct (nth_error maxGenes i); simpl; [|discriminate].
  destruct (nth_error minGenes j); simpl; [|discriminate].
  destruct (InnovationID _ <? InnovationID _).
  - destruct (rnd pos <? 0.5)%float; apply IH.
  - destruct (InnovationID _ =? InnovationID _); [apply IH|].
    destruct (rnd pos <? 0.5)%float; apply IH.
Qed.

(** X7.  Two parents of equal fitness, cycles allowed, the one with fewer
    genes ending in a gene newer than every gene of the other: the first
    merge loop reads the longer list past its end before it can take that
    gene, so [Crossover] never returns a child; with accepting draws and
    enough fuel the run is seen to end out of bounds. *)
Theorem Crossover_newest_gene_in_shorter_parent {TaskType : Type}
    (neat : NEAT TaskType) (rnd : nat -> float) (fuel : nat) (g1 g2 : Genome)
    (pos : nat) (short long : Genome) (front : list ConnectionGene)
    (last : ConnectionGene) :
  negb (abs (Fitness g1 - Fitness g2) <? fitness_tolerance)%float
    || isAcyclic neat = false ->
  (short = g1 /\ long = g2) \/ (short = g2 /\ long = g1) ->
  connectionGeneList short = front ++ [last] ->
  length (connectionGeneList short) < length (connectionGeneList long) ->
  (forall c, In c (connectionGeneList long) -> InnovationID c < InnovationID last) ->
  is_done (Crossover neat rnd fuel g1 g2 pos) = false /\
  ((forall p, (rnd p <? 0.5)%float = true) ->
   length (connectionGeneList g1) + length (connectionGeneList g2) < fuel ->
   Crossover neat rnd fuel g1 g2 pos = OutOfBounds).
Proof.
  intros Hc Hsl Hshort Hlen Hnew.
  assert (Hnd : is_done (Crossover neat rnd fuel g1 g2 pos) = false).
  { rewrite (Crossover_merge_unfold neat rnd fuel g1 g2 pos Hc).
    rewrite gene_merge_branch_unfold. cbv zeta.
    assert (Hstuck : forall maxGenes,
              maxGenes = connectionGeneList long ->
              is_done (merge_aligned rnd fuel maxGenes (front ++ [last]) 0 0 [] pos)
                = false).
    { intros maxGenes ->. apply merge_aligned_stuck; [exact Hnew|lia]. }
    destruct Hsl as [[-> ->]|[-> ->]].
    - destruct (length (connectionGeneList g2) <? length (connectionGeneList g1)) eqn:C1;
        [apply Nat.ltb_lt in C1; lia|].
      destruct (length (connectionGeneList g1) <? length (connectionGeneList g2)) eqn:C2;
        [|apply Nat.ltb_ge in C2; lia].
      rewrite Hshort. specialize (Hstuck _ eq_refl).
      destruct (merge_aligned rnd fuel (connectionGeneList g2) (front ++ [last]) 0 0 [] pos);
        simpl in *; try reflexivity; discriminate.
    - destruct (length (connectionGeneList g2) <? length (connectionGeneList g1)) eqn:C1;
        [|apply Nat.ltb_ge in C1; lia].
      destruct (length (connectionGeneList g1) <? length (connectionGeneList g2)) eqn:C2;
        [apply Nat.ltb_lt in C2; lia|].
      rewrite Hshort. specialize (Hstuck _ eq_refl).
      destruct (merge_aligned rnd fuel (connectionGeneList g1) (front ++ [last]) 0 0 [] pos);
        simpl in *; try reflexivity; discriminate. }
  split; [exact Hnd|].
  intros Hacc Hfuel.
  pose proof (@Crossover_finishes rnd Hacc TaskType neat fuel g1 g2 pos Hfuel) as Hfin.
  assert (Hund : Crossover neat rnd fuel g1 g2 pos <> Undefined).
  { rewrite (Crossover_merge_unfold neat rnd fuel g1 g2 pos Hc).
    rewrite gene_merge_branch_unfold. cbv zeta.
    match goal with
    | |- context [merge_aligned rnd fuel ?a ?b 0 0 [] pos] =>
        pose proof (@merge_aligned_not_undefined rnd a b fuel 0 0 [] pos) as Hm;
        destruct (merge_aligned rnd fuel a b 0 0 [] pos) as [[[new i] p1]| | |]
    end; simpl; try discriminate; [|congruence].
    assert (Hr : forall n k l q, merge_rest rnd n
               (if length (connectionGeneList g2) <? length (connectionGeneList g1)
                then connectionGeneList g1 else connectionGeneList g2) k l q
               <> Undefined).
    { intros n. induction n as [|n IH]; intros k l q; simpl; [discriminate|].
      destruct (k <? _); [|discriminate].
      destruct (rnd q <? 0.5)%float; [|apply IH].
      unfold vec_get. destruct (nth_error _ k); simpl; [apply IH|discriminate]. }
    specialize (Hr fuel i new p1).
    destruct (merge_rest rnd fuel _ i new p1) as [[new' p2]| | |]; simpl;
      try discriminate; congruence. }
  destruct (Crossover neat rnd fuel g1 g2 pos); simpl in Hnd; try congruence;
    reflexivity.
Qed.

Lemma Crossover_newest_gene_in_shorter_parent_witness :
  is_done (Crossover (Ex.engine 10 []) Ex.draws 10 (set_Fitness 1 Ex.narrow) Ex.wide 0)
    = false.
Proof.
  apply (@Crossover_newest_gene_in_shorter_parent unit (Ex.engine 10 []) Ex.draws 10
           (set_Fitness 1 Ex.narrow) Ex.wide 0 (set_Fitness 1 Ex.narrow) Ex.wide
           [mkConnectionGene 0 1 0 2 true; mkConnectionGene 1 2 1 2 false]
           (mkConnectionGene 4 3 0 3 true)).
  - vm_compute. reflexivity.
  - left. split; reflexivity.
  - reflexivity.
  - simpl. lia.
  - intros c [<-|[<-|[<-|[<-|[]]]]]; simpl; lia.
Defined.

(** * More on rank selection *)

(** X9.  A fitness vector of one element, and draws below 1: the acceptance
    probability is [1 * 2 / (1 * 2) = 1], the only candidate is taken by both
    loops, and [Select] returns the index 0 twice after two draws; the second
    loop stops as soon as [selection[1]] is set, equal indices or not. *)
Theorem Select_one_candidate_twice (rnd : nat -> float) (fuel : nat)
    (f s0 s1 : float) (rp : nat) :
  (forall i, (rnd i <? 1)%float = true) ->
  RankSelection.Select rnd (S (S fuel)) [f] [s0; s1] rp
    = Done ([0%float; 0%float], S (S rp)).
Proof.
  intros Hr. unfold RankSelection.Select.
  change (Z.of_nat (length [f])) with 1%Z.
  change (Double.of_size_t 1) with 1%float.
  cbn [vec_set bind].
  cbn [RankSelection.choose_first vec_get nth_error bind].
  change (1 =? Double.of_size_t 1)%float with true.
  change (1 <=? 0)%Z with false. cbv iota.
  change (RankSelection.prob 1 0) with (Done 1%float).
  cbn [bind]. rewrite Hr. cbn [vec_set bind].
  change (Double.of_size_t 0) with 0%float.
  cbn [vec_get nth_error bind].
  change (0 =? Double.of_size_t 1)%float with false. cbv iota.
  cbn [bind].
  cbn [RankSelection.choose_second vec_get nth_error vec_set bind].
  change (1 =? Double.of_size_t 1)%float with true.
  change (0 =? 1)%float with false.
  change (1 <=? 0)%Z with false. cbn [andb negb]. cbv iota.
  change (RankSelection.prob 1 0) with (Done 1%float).
  cbn [bind]. rewrite Hr. cbn [vec_set bind vec_get nth_error].
  change (Double.of_size_t 0) with 0%float.
  change (0 =? Double.of_size_t 1)%float with false.
  cbn [andb]. reflexivity.
Qed.

Lemma Select_one_candidate_twice_witness :
  RankSelection.Select Ex.draws 2 [7%float] [0%float; 0%float] 3
    = Done ([0%float; 0%float], 5).
Proof.
  apply (@Select_one_candidate_twice Ex.draws 0 7%float 0%float 0%float 3).
  intros i. unfold Ex.draws. destruct (Nat.even i); reflexivity.
Defined.

(** X10.  An empty fitness vector: [size * (size + 1)] is 0 and the first
    loop divides by it; the integer division by zero is undefined, whatever
    the draws. *)
Theorem Select_empty_divides_by_zero (rnd : nat -> float) (fuel : nat)
    (s0 s1 : float) (rp : nat) :
  RankSelection.Select rnd (S fuel) [] [s0; s1] rp = Undefined.
Proof.
  unfold RankSelection.Select.
  change (Z.of_nat (length (@nil float))) with 0%Z.
  cbn [vec_set bind RankSelection.choose_first vec_get nth_error].
  rewrite of_size_t_eqb_refl. reflexivity.
Qed.

(** * More on the reconciliation *)

Lemma vec_get_middle (A : Type) (pre rest : list A) (x : A) :
  vec_get (pre ++ x :: rest) (length pre) = Done x.
Proof.
  unfold vec_get. rewrite nth_error_app2 by lia. rewrite Nat.sub_diag. reflexivity.
Qed.

Lemma vec_set_middle (A : Type) (pre rest : list A) (x y : A) :
  vec_set (pre ++ y :: rest) (length pre) x = Done (pre ++ x :: rest).
Proof.
  induction pre as [|z pre IH]; simpl; [reflexivity|]. rewrite IH. reflexivity.
Qed.

Lemma vec_get_end (A : Type) (v : list A) : vec_get v (length v) = OutOfBounds.
Proof.
  unfold vec_get. destruct (nth_error v (length v)) eqn:E; [|reflexivity].
  assert (length v < length v) by (apply nth_error_Some; congruence). lia.
Qed.

Section Deficit.

Context {TaskType : Type}.
Variable neat : NEAT TaskType.

(** The loop that fills a deficit adds one to as many consecutive sizes. *)
Lemma fill_deficit_adds (mid pre post : list float) (fuel : nat) :
  length mid < fuel ->
  fill_deficit fuel (pre ++ mid ++ post) (length pre) (Z.of_nat (length mid))
    = Done (pre ++ map (fun x => (x + 1)%float) mid ++ post).
Proof.
  revert pre fuel; induction mid as [|x mid IH]; intros pre fuel Hf;
    (destruct fuel as [|fuel]; [simpl in Hf; lia|]).
  - reflexivity.
  - cbn [fill_deficit].
    destruct (0 <? Z.of_nat (length (x :: mid)))%Z eqn:C;
      [|apply Z.ltb_ge in C; simpl in C; lia].
    change ((x :: mid) ++ post) with (x :: mid ++ post).
    rewrite vec_get_middle. cbn [bind].
    rewrite vec_set_middle. cbn [bind].
    replace (Z.of_nat (length (x :: mid)) - 1)%Z with (Z.of_nat (length mid))
      by (simpl length; lia).
    replace (pre ++ (x + 1)%float :: mid ++ post)
      with ((pre ++ [(x + 1)%float]) ++ mid ++ post)
      by (rewrite <- app_assoc; reflexivity).
    replace (S (length pre)) with (length (pre ++ [(x + 1)%float]))
      by (rewrite length_app; simpl; lia).
    rewrite IH by (simpl in Hf; lia).
    rewrite <- app_assoc. reflexivity.
Qed.

(** It runs off the end of [speciesSize] when the deficit is larger than the
    number of sizes left. *)
Lemma fill_deficit_out_of_bounds (rest pre : list float) (fuel : nat) (delta : Z) :
  (Z.of_nat (length rest) < delta)%Z -> length rest < fuel ->
  fill_deficit fuel (pre ++ rest) (length pre) delta = OutOfBounds.
Proof.
  revert pre fuel delta; induction rest as [|x rest IH]; intros pre fuel delta Hd Hf;
    (destruct fuel as [|fuel]; [simpl in Hf; lia|]); cbn [fill_deficit];
    (destruct (0 <? delta)%Z eqn:C; [|apply Z.ltb_ge in C; simpl in Hd; lia]).
  - rewrite app_nil_r, vec_get_end. reflexivity.
  - rewrite vec_get_middle. cbn [bind]. rewrite vec_set_middle. cbn [bind].
    replace (pre ++ (x + 1)%float :: rest) with ((pre ++ [(x + 1)%float]) ++ rest)
      by (rewrite <- app_assoc; reflexivity).
    replace (S (length pre)) with (length (pre ++ [(x + 1)%float]))
      by (rewrite length_app; simpl; lia).
    apply IH; simpl in *; lia.
Qed.

(** X11.  When the allotted sizes fall short of [popSize] by [delta], from 1
    to the number of species, the reconciliation adds one slot to each of the
    first [delta] species, in index order, and leaves the others as they
    are. *)
Theorem reconcile_deficit_first_species (fuel : nat) (speciesSize : list float)
    (delta : Z) :
  Double.to_int (Double.of_nat (popSize neat) - Double.accu speciesSize)%float
    = Done delta ->
  (0 < delta)%Z -> Z.to_nat delta <= length speciesSize ->
  Z.to_nat delta < fuel ->
  reconcile neat fuel speciesSize
    = Done (map (fun x => (x + 1)%float) (firstn (Z.to_nat delta) speciesSize)
              ++ skipn (Z.to_nat delta) speciesSize).
Proof.
  intros E Hd Hlen Hf. unfold reconcile. rewrite E. cbn [bind].
  destruct (0 <? delta)%Z eqn:C; [|apply Z.ltb_ge in C; lia].
  pose proof (fill_deficit_adds (firstn (Z.to_nat delta) speciesSize) []
                (skipn (Z.to_nat delta) speciesSize) (fuel := fuel)) as H.
  rewrite firstn_length_le in H by lia.
  rewrite Z2Nat.id in H by lia.
  simpl in H. rewrite firstn_skipn in H. apply H. lia.
Qed.

(** X12.  When the deficit is larger than the number of species, the loop
    that fills it writes [speciesSize[numSpecies]], past the end of the
    vector. *)
Theorem reconcile_deficit_out_of_bounds (fuel : nat) (speciesSize : list float)
    (delta : Z) :
  Double.to_int (Double.of_nat (popSize neat) - Double.accu speciesSize)%float
    = Done delta ->
  (Z.of_nat (length speciesSize) < delta)%Z ->
  length speciesSize < fuel ->
  reconcile neat fuel speciesSize = OutOfBounds.
Proof.
  intros E Hd Hf. unfold reconcile. rewrite E. cbn [bind].
  destruct (0 <? delta)%Z eqn:C; [|apply Z.ltb_ge in C; lia].
  apply (fill_deficit_out_of_bounds speciesSize []); lia.
Qed.

End Deficit.

Lemma reconcile_deficit_first_species_witness :
  reconcile (Ex.engine 10 []) 2 [3%float; 3%float; 3%float]
    = Done (map (fun x => (x + 1)%float) (firstn (Z.to_nat 1) [3%float; 3%float; 3%float])
              ++ skipn (Z.to_nat 1) [3%float; 3%float; 3%float]).
Proof.
  apply (@reconcile_deficit_first_species unit (Ex.engine 10 []) 2
           [3%float; 3%float; 3%float] 1%Z).
  - vm_compute. reflexivity.
  - lia.
  - simpl. lia.
  - simpl. lia.
Defined.

Lemma reconcile_deficit_out_of_bounds_witness :
  reconcile (Ex.engine 10 []) 3 [0%float; 0%float] = OutOfBounds.
Proof.
  apply (@reconcile_deficit_out_of_bounds unit (Ex.engine 10 []) 3
           [0%float; 0%float] 10%Z).
  - vm_compute. reflexivity.
  - simpl. lia.
  - simpl. lia.
Defined.

(** Two species whose mean fitnesses add up to infinity are allotted nothing,
    and the whole population is the deficit. *)
Example huge_fitness_allots_nothing :
  allotted (Ex.engine 10 [[Ex.member 0x1p+1023]; [Ex.member 0x1p+1023]])
    = [0%float; 0%float] /\
  speciesSizes (Ex.engine 10 [[Ex.member 0x1p+1023]; [Ex.member 0x1p+1023]]) 3
    = OutOfBounds.
Proof. split; vm_compute; reflexivity. Qed.

(** * What [Reproduce] can return under rank selection *)

Section ElitesOnly.

Context {TaskType : Type}.
Variable Statics : Type.
Variable Mutate : Genome -> Statics * nat -> Genome * (Statics * nat).
Variable neat : NEAT TaskType.
Variable rnd : nat -> float.

(** One turn of the breeding loop never completes. *)
Lemma breed_never_done (fuel : nat) (species : list Genome)
    (fitnesses : list float) (genomeList : list Genome) (st : Statics * nat) :
  is_done (breed (policy := RankSelection_policy) Mutate neat rnd fuel species
             fitnesses genomeList st) = false.
Proof.
  unfold breed. simpl.
  destruct (RankSelection.Select rnd fuel fitnesses [0%float; 0%float] (snd st))
    as [[selection rp]| | |] eqn:E; simpl; try reflexivity.
  apply Select_length in E. simpl in E.
  destruct selection as [|a [|b [|c rest]]]; simpl in E; try discriminate.
  reflexivity.
Qed.

(** So the loop that fills the quota returns only when there is nothing to
    fill. *)
Lemma fill_quota_Done (fuel : nat) (species : list Genome)
    (fitnesses : list float) (speciesSize : float) (currentSize : nat)
    (genomeList : list Genome) (st : Statics * nat)
    (genomeList' : list Genome) (st' : Statics * nat) :
  fill_quota (policy := RankSelection_policy) Mutate neat rnd fuel species
    fitnesses speciesSize currentSize genomeList st = Done (genomeList', st') ->
  genomeList' = genomeList /\ st' = st /\
  (Double.of_nat (length genomeList - currentSize) <? speciesSize)%float = false.
Proof.
  destruct fuel as [|fuel]; simpl; [discriminate|].
  destruct (Double.of_nat (length genomeList - currentSize) <? speciesSize)%float.
  - pose proof (breed_never_done fuel species fitnesses genomeList st) as Hb.
    destruct (breed Mutate neat rnd fuel species fitnesses genomeList st);
      simpl in *; discriminate.
  - intros H. injection H as <- <-. repeat split.
Qed.

Lemma reproduce_species_Done (fuel : nat) (species : list Genome)
    (speciesSize numElite : float) (genomeList : list Genome)
    (st : Statics * nat) (genomeList' : list Genome) (st' : Statics * nat) :
  reproduce_species (policy := RankSelection_policy) Mutate neat rnd fuel species
    speciesSize numElite genomeList st = Done (genomeList', st') ->
  st' = st /\ exists k, genomeList' = genomeList ++ firstn k species.
Proof.
  unfold reproduce_species. rewrite std_sort_empty_range.
  destruct (copy_elites numElite 0 species genomeList) as [elites| | |] eqn:E;
    simpl; try discriminate.
  intros H. apply fill_quota_Done in H. destruct H as [-> [-> _]].
  split; [reflexivity|]. eapply copy_elites_prefix. exact E.
Qed.

Lemma reproduce_all_Done (fuel : nat) (species : list (list Genome))
    (speciesSize numElite : list float) (genomeList : list Genome)
    (st : Statics * nat) (genomeList' : list Genome) (st' : Statics * nat) :
  reproduce_all (policy := RankSelection_policy) Mutate neat rnd fuel species
    speciesSize numElite genomeList st = Done (genomeList', st') ->
  st' = st /\
  exists added,
    genomeList' = genomeList ++ added /\
    Forall (fun g => exists sp, In sp species /\ In g sp) added.
Proof.
  revert speciesSize numElite genomeList;
    induction species as [|sp species IH]; intros speciesSize numElite genomeList H.
  - simpl in H. injection H as <- <-. split; [reflexivity|].
    exists []. rewrite app_nil_r. split; [reflexivity|constructor].
  - simpl in H.
    destruct speciesSize as [|size sizes];
      [injection H as <- <-; split; [reflexivity|];
       exists []; rewrite app_nil_r; split; [reflexivity|constructor]|].
    destruct numElite as [|elite elites];
      [injection H as <- <-; split; [reflexivity|];
       exists []; rewrite app_nil_r; split; [reflexivity|constructor]|].
    destruct (reproduce_species Mutate neat rnd fuel sp size elite genomeList st)
      as [[gl1 st1]| | |] eqn:E; simpl in H; try discriminate.
    apply reproduce_species_Done in E. destruct E as [-> [k ->]].
    destruct (IH _ _ _ H) as [-> [added [-> Hadded]]].
    split; [reflexivity|].
    exists (firstn k sp ++ added). rewrite app_assoc. split; [reflexivity|].
    apply Forall_app. split.
    + apply Forall_forall. intros g Hg. exists sp. split; [left; reflexivity|].
      rewrite <- (firstn_skipn k sp). apply in_or_app. left. exact Hg.
    + eapply Forall_impl; [|exact Hadded]. simpl.
      intros g [sp' [Hs Hg]]. exists sp'. split; [right; exact Hs|exact Hg].
Qed.

(** X13.  Under rank selection [Reproduce] breeds nothing: whenever it
    returns, every genome of the new population is a member of a species of
    the old one, copied as an elite, and neither a draw nor the static state
    of [Genome] has been used. *)
Theorem Reproduce_returns_elites_only (fuel : nat) (st : Statics * nat)
    (population : list Genome) (st' : Statics * nat) :
  Reproduce (policy := RankSelection_policy) Mutate neat rnd fuel st
    = Done (population, st') ->
  st' = st /\
  Forall (fun g => exists sp, In sp (speciesList neat) /\ In g sp) population.
Proof.
  unfold Reproduce.
  destruct (speciesSizes neat fuel) as [sizes| | |]; simpl; try discriminate.
  intros H. apply reproduce_all_Done in H.
  destruct H as [-> [added [-> Hadded]]]. split; [reflexivity|exact Hadded].
Qed.

End ElitesOnly.

Lemma Reproduce_returns_elites_only_witness :
  Reproduce (policy := RankSelection_policy)
    (fun (g : Genome) (st : unit * nat) => (g, st))
    (Ex.engine 1 [[Ex.member 1]]) Ex.draws 5 (tt, 0)
    = Done ([Ex.member 1], (tt, 0)) /\
  Forall (fun g => exists sp, In sp [[Ex.member 1]] /\ In g sp) [Ex.member 1].
Proof.
  assert (H : Reproduce (policy := RankSelection_policy)
                (fun (g : Genome) (st : unit * nat) => (g, st))
                (Ex.engine 1 [[Ex.member 1]]) Ex.draws 5 (tt, 0)
              = Done ([Ex.member 1], (tt, 0))) by (vm_compute; reflexivity).
  split; [exact H|].
  exact (proj2 (@Reproduce_returns_elites_only unit unit
                  (fun (g : Genome) (st : unit * nat) => (g, st))
                  (Ex.engine 1 [[Ex.member 1]]) Ex.draws 5 (tt, 0)
                  [Ex.member 1] (tt, 0) H)).
Defined.

(** * A species that is allotted nothing *)

Lemma round_mul_zero (e : float) :
  Double.finite e = true -> (Double.round (e * 0) =? 0)%float = true.
Proof.
  unfold Double.finite. intros He.
  assert (Hz : exists s, Prim2SF (e * 0)%float = S754_zero s).
  { rewrite FloatAxioms.mul_spec. change (Prim2SF 0) with (S754_zero false).
    destruct (Prim2SF e) as [s|s| |s m x]; try discriminate; simpl; eauto. }
  destruct Hz as [s Hz].
  assert (Hr : Double.round (e * 0)%float = (e * 0)%float)
    by (unfold Double.round; rewrite Hz; reflexivity).
  rewrite Hr, FloatAxioms.eqb_spec, Hz. reflexivity.
Qed.

(** X14.  A species with at least one member that is allotted the size 0
    still puts one genome into the new population: the elite count
    [round(elitismProp * 0) = 0] is raised to 1, the first member is copied,
    and the quota test then stops the loop; the population grows by one
    genome the allotment did not count. *)
Theorem zero_quota_species_adds_one {TaskType : Type}
    {policy : SelectionPolicy} (Statics : Type)
    (Mutate : Genome -> Statics * nat -> Genome * (Statics * nat))
    (neat : NEAT TaskType) (rnd : nat -> float) (fuel : nat) (g : Genome)
    (rest genomeList : list Genome) (st : Statics * nat) :
  Double.finite (elitismProp neat) = true ->
  eliteCount neat 0 = 1%float /\
  reproduce_species Mutate neat rnd (S fuel) (g :: rest) 0 (eliteCount neat 0)
    genomeList st = Done (genomeList ++ [g], st).
Proof.
  intros He.
  assert (E1 : eliteCount neat 0 = 1%float).
  { unfold eliteCount. rewrite (round_mul_zero _ He). reflexivity. }
  split; [exact E1|]. rewrite E1.
  unfold reproduce_species. rewrite std_sort_empty_range.
  cbn [copy_elites].
  change (Double.of_nat 0 <? 1)%float with true. cbv iota.
  assert (Hstop : forall members, copy_elites 1 1 members (genomeList ++ [g])
                                  = Done (genomeList ++ [g])).
  { intros [|m members]; reflexivity. }
  rewrite Hstop. cbn [bind fill_quota].
  rewrite length_app. simpl length.
  replace (length genomeList + 1 - length genomeList) with 1 by lia.
  reflexivity.
Qed.

Lemma zero_quota_species_adds_one_witness :
  eliteCount (Ex.engine 2 []) 0 = 1%float /\
  reproduce_species (policy := RankSelection_policy)
    (fun (g : Genome) (st : unit * nat) => (g, st)) (Ex.engine 2 []) Ex.draws 1
    [Ex.member 1; Ex.member 5] 0 (eliteCount (Ex.engine 2 []) 0)
    [Ex.member 7; Ex.member 7] (tt, 0)
    = Done ([Ex.member 7; Ex.member 7] ++ [Ex.member 1], (tt, 0)).
Proof.
  apply (@zero_quota_species_adds_one unit RankSelection_policy unit
           (fun (g : Genome) (st : unit * nat) => (g, st)) (Ex.engine 2 [])
           Ex.draws 0 (Ex.member 1) [Ex.member 5] [Ex.member 7; Ex.member 7] (tt, 0)).
  reflexivity.
Defined.

(** * Speciation *)

Lemma vec_set_nth_error (A : Type) (v v' : list A) (i : nat) (x : A) :
  vec_set v i x = Done v' ->
  i < length v /\
  forall j, nth_error v' j = if j =? i then Some x else nth_error v j.
Proof.
  revert i v'; induction v as [|y v IH]; intros [|i] v' H; simpl in H;
    try discriminate.
  - injection H as <-. split; [simpl; lia|]. intros [|j]; reflexivity.
  - destruct (vec_set v i x) as [r| | |] eqn:E; simpl in H; try discriminate.
    injection H as <-. destruct (IH _ _ E) as [Hi Hn].
    split; [simpl; lia|]. intros [|j]; simpl; [reflexivity|apply Hn].
Qed.

(** ** The matrix of weights *)

Lemma zeros_shaped (rows cols : nat) : shaped rows cols (zeros rows cols).
Proof.
  unfold shaped, zeros. split; [apply repeat_length|].
  apply Forall_forall. intros c Hc. apply repeat_spec in Hc. subst c.
  apply repeat_length.
Qed.

Lemma shaped_column (rows cols : nat) (data : list (list float)) (i : nat)
    (column : list float) :
  shaped rows cols data -> nth_error data i = Some column ->
  length column = rows /\ i < cols.
Proof.
  intros [Hl Hall] E. split.
  - rewrite Forall_forall in Hall. apply Hall. eapply nth_error_In. exact E.
  - rewrite <- Hl. apply nth_error_Some. congruence.
Qed.

(** A write that returns is inside the matrix, changes one cell and keeps
    the shape. *)
Lemma mat_set_Done (rows cols : nat) (data data' : list (list float))
    (row col : nat) (w : float) :
  shaped rows cols data ->
  mat_set data row col w = Done data' ->
  row < rows /\ col < cols /\ shaped rows cols data' /\
  (forall j, j <> col -> nth_error data' j = nth_error data j) /\
  exists column column',
    nth_error data col = Some column /\ nth_error data' col = Some column' /\
    forall k, nth_error column' k = if k =? row then Some w else nth_error column k.
Proof.
  intros Hs. unfold mat_set.
  destruct (vec_get data col) as [column| | |] eqn:E1; simpl; try discriminate.
  destruct (vec_set column row w) as [column'| | |] eqn:E2; simpl; try discriminate.
  intros E3. apply vec_get_Done in E1.
  destruct (@shaped_column _ _ _ _ _ Hs E1) as [Hlen Hcol].
  destruct (vec_set_nth_error _ _ _ E2) as [Hrow Hcells].
  destruct (vec_set_nth_error _ _ _ E3) as [_ Hcols].
  split; [lia|]. split; [exact Hcol|]. split; [|split].
  - destruct Hs as [Hl Hall]. split.
    + rewrite (vec_set_length _ _ _ E3). exact Hl.
    + apply Forall_forall. intros c Hc. apply In_nth_error in Hc.
      destruct Hc as [j Hj]. rewrite Hcols in Hj.
      destruct (j =? col).
      * injection Hj as <-. rewrite (vec_set_length _ _ _ E2). exact Hlen.
      * rewrite Forall_forall in Hall. apply Hall. eapply nth_error_In. exact Hj.
  - intros j Hj. rewrite Hcols.
    destruct (j =? col) eqn:C; [apply Nat.eqb_eq in C; lia|reflexivity].
  - exists column, column'. split; [exact E1|]. split; [|exact Hcells].
    rewrite Hcols, Nat.eqb_refl. reflexivity.
Qed.

Lemma mat_set_cases (data : list (list float)) (row col : nat) (w : float) :
  (exists data', mat_set data row col w = Done data') \/
  mat_set data row col w = OutOfBounds.
Proof.
  unfold mat_set, vec_get.
  destruct (nth_error data col) as [column|] eqn:E1; simpl; [|right; reflexivity].
  destruct (vec_set_cases column row w) as [-> | [column' ->]]; simpl;
    [right; reflexivity|].
  destruct (vec_set_cases data col column') as [-> | [data' ->]];
    [right; reflexivity|left; eexists; reflexivity].
Qed.

(** The genes of one genome, once plotted: every gene lies inside the
    matrix, only column [i] has changed, and there each row holds the weight
    of the last gene plotted with that innovation ID, or what it held. *)
Lemma plot_genes_Done (rows cols : nat) (genes : list ConnectionGene) (i : nat)
    (data data' : list (list float)) :
  shaped rows cols data ->
  plot_genes genes i data = Done data' ->
  shaped rows cols data' /\
  (forall c, In c genes -> InnovationID c < rows /\ i < cols) /\
  (forall j, j <> i -> nth_error data' j = nth_error data j) /\
  (forall column column',
     nth_error data i = Some column -> nth_error data' i = Some column' ->
     (forall k, ~ In k (innovations genes) -> nth_error column' k = nth_error column k) /\
     (NoDup (innovations genes) ->
      forall c, In c genes -> nth_error column' (InnovationID c) = Some (Weight c))).
Proof.
  revert data; induction genes as [|c genes IH]; intros data Hs H; simpl in H.
  - injection H as <-. split; [exact Hs|]. split; [intros c []|].
    split; [reflexivity|]. intros column column' E E'.
    rewrite E in E'. injection E' as <-. split; [reflexivity|intros _ c []].
  - destruct (mat_set data (InnovationID c) i (Weight c)) as [data1| | |] eqn:E1;
      simpl in H; try discriminate.
    destruct (@mat_set_Done rows cols _ _ _ _ _ Hs E1)
      as [Hrow [Hcol [Hs1 [Hother [col0 [col1 [Ec0 [Ec1 Hcells]]]]]]]].
    destruct (IH data1 Hs1 H) as [Hs' [Hin [Hother' Hcolumn]]].
    split; [exact Hs'|]. split; [|split].
    + intros c' [<-|Hc']; [split; assumption|apply Hin; exact Hc'].
    + intros j Hj. rewrite Hother', Hother by exact Hj. reflexivity.
    + intros column column' E E'. rewrite Ec0 in E. injection E as <-.
      destruct (Hcolumn _ _ Ec1 E') as [Hkeep Hset]. split.
      * intros k Hk. simpl in Hk. rewrite Hkeep by tauto. rewrite Hcells.
        destruct (k =? InnovationID c) eqn:C; [|reflexivity].
        apply Nat.eqb_eq in C. exfalso. apply Hk. left. symmetry. exact C.
      * intros Hnd c' Hc'. simpl in Hnd. inversion Hnd as [|x l Hnotin Hnd']; subst.
        destruct Hc' as [<-|Hc'].
        -- rewrite Hkeep by exact Hnotin. rewrite Hcells, Nat.eqb_refl. reflexivity.
        -- apply Hset; assumption.
Qed.

Lemma plot_genes_cases (genes : list ConnectionGene) (i : nat)
    (data : list (list float)) :
  (exists data', plot_genes genes i data = Done data') \/
  plot_genes genes i data = OutOfBounds.
Proof.
  revert data; induction genes as [|c genes IH]; intros data; simpl.
  - left. eexists. reflexivity.
  - destruct (mat_set_cases data (InnovationID c) i (Weight c)) as [[data1 ->]| ->];
      simpl; [apply IH|right; reflexivity].
Qed.

Lemma plot_genomes_Done (rows cols : nat) (genomes : list Genome) (i : nat)
    (data data' : list (list float)) :
  shaped rows cols data ->
  plot_genomes genomes i data = Done data' ->
  shaped rows cols data' /\
  (forall j, j < i -> nth_error data' j = nth_error data j) /\
  (forall n g, nth_error genomes n = Some g ->
     (forall c, In c (connectionGeneList g) ->
                InnovationID c < rows /\ i + n < cols) /\
     forall column column',
       nth_error data (i + n) = Some column ->
       nth_error data' (i + n) = Some column' ->
       (forall k, ~ In k (innovations (connectionGeneList g)) ->
                  nth_error column' k = nth_error column k) /\
       (NoDup (innovations (connectionGeneList g)) ->
        forall c, In c (connectionGeneList g) ->
                  nth_error column' (InnovationID c) = Some (Weight c))).
Proof.
  revert i data; induction genomes as [|g genomes IH]; intros i data Hs H;
    simpl in H.
  - injection H as <-. split; [exact Hs|]. split; [reflexivity|].
    intros [|n] g0 E; discriminate.
  - destruct (plot_genes (connectionGeneList g) i data) as [data1| | |] eqn:E1;
      simpl in H; try discriminate.
    destruct (@plot_genes_Done rows cols _ _ _ _ Hs E1) as [Hs1 [Hin [Hother Hcolumn]]].
    destruct (IH (S i) data1 Hs1 H) as [Hs' [Hbefore Hrest]].
    split; [exact Hs'|]. split.
    + intros j Hj. rewrite Hbefore by lia. apply Hother. lia.
    + intros [|n] g0 E; simpl in E.
      * injection E as <-. rewrite Nat.add_0_r. split; [exact Hin|].
        intros column column' Ec Ec'. rewrite Hbefore in Ec' by lia.
        apply (Hcolumn _ _ Ec Ec').
      * replace (i + S n) with (S i + n) by lia.
        destruct (Hrest _ _ E) as [Hin' Hcol']. split; [exact Hin'|].
        intros column column' Ec Ec'. apply Hcol'; [|exact Ec'].
        rewrite Hother by lia. exact Ec.
Qed.

Lemma plot_genomes_cases (genomes : list Genome) (i : nat)
    (data : list (list float)) :
  (exists data', plot_genomes genomes i data = Done data') \/
  plot_genomes genomes i data = OutOfBounds.
Proof.
  revert i data; induction genomes as [|g genomes IH]; intros i data; simpl.
  - left. eexists. reflexivity.
  - destruct (plot_genes_cases (connectionGeneList g) i data) as [[data1 ->]| ->];
      simpl; [apply IH|right; reflexivity].
Qed.

Lemma nth_error_zeros (rows cols i : nat) :
  i < cols -> nth_error (zeros rows cols) i = Some (repeat 0%float rows).
Proof. intros H. unfold zeros. apply nth_error_repeat. exact H. Qed.

(** X15.  The matrix [Speciate] clusters: for a genome of index [i] below
    [popSize] whose genes have distinct innovation IDs, column [i] has
    [nextInnovID] rows, row [k] holding the weight of the gene with
    innovation ID [k], and 0 where the genome has no such gene. *)
Theorem speciate_data_column {TaskType : Type} (neat : NEAT TaskType)
    (nextInnovID : nat) (data : list (list float)) (i : nat) (g : Genome) :
  speciate_data neat nextInnovID = Done data ->
  nth_error (genomeList neat) i = Some g -> i < popSize neat ->
  NoDup (innovations (connectionGeneList g)) ->
  exists column,
    nth_error data i = Some column /\ length column = nextInnovID /\
    (forall c, In c (connectionGeneList g) ->
               nth_error column (InnovationID c) = Some (Weight c)) /\
    (forall k, k < nextInnovID -> ~ In k (innovations (connectionGeneList g)) ->
               nth_error column k = Some 0%float).
Proof.
  unfold speciate_data. intros H Eg Hi Hnd.
  destruct (@plot_genomes_Done _ _ _ _ _ _ (zeros_shaped nextInnovID (popSize neat)) H)
    as [Hs [_ Hall]].
  destruct (Hall _ _ Eg) as [_ Hcol]. simpl in Hcol.
  destruct (nth_error data i) as [column|] eqn:Ec.
  2:{ apply nth_error_None in Ec. destruct Hs as [Hl _]. lia. }
  destruct (Hcol _ _ (nth_error_zeros nextInnovID Hi) eq_refl) as [Hkeep Hset].
  exists column. split; [reflexivity|]. split; [|split].
  - apply (@shaped_column _ _ _ _ _ Hs Ec).
  - apply Hset. exact Hnd.
  - intros k Hk Hnot. rewrite Hkeep by exact Hnot.
    apply nth_error_repeat. exact Hk.
Qed.

Lemma speciate_data_column_witness :
  exists column,
    nth_error [[1%float; 2%float; 0%float; 0%float; 3%float];
               [10%float; 20%float; 30%float; 7%float; 0%float]] 0 = Some column /\
    length column = 5 /\
    (forall c, In c (connectionGeneList Ex.narrow) ->
               nth_error column (InnovationID c) = Some (Weight c)) /\
    (forall k, k < 5 -> ~ In k (innovations (connectionGeneList Ex.narrow)) ->
               nth_error column k = Some 0%float).
Proof.
  apply (@speciate_data_column unit (Ex2.populated [Ex.narrow; Ex.wide] [[]; []]) 5
           [[1%float; 2%float; 0%float; 0%float; 3%float];
            [10%float; 20%float; 30%float; 7%float; 0%float]] 0 Ex.narrow).
  - vm_compute. reflexivity.
  - reflexivity.
  - simpl. lia.
  - simpl. repeat constructor; simpl; intuition lia.
Defined.

(** X16.  A gene whose innovation ID is not below [nextInnovID], or a gene
    of a genome whose index is not below [popSize], lies outside the matrix:
    [Speciate] ends out of bounds before it clusters anything. *)
Theorem speciate_data_out_of_bounds {TaskType : Type} (neat : NEAT TaskType)
    (nextInnovID : nat) (i : nat) (g : Genome) (c : ConnectionGene) :
  nth_error (genomeList neat) i = Some g -> In c (connectionGeneList g) ->
  nextInnovID <= InnovationID c \/ popSize neat <= i ->
  speciate_data neat nextInnovID = OutOfBounds.
Proof.
  intros Eg Hc Hbad. unfold speciate_data.
  destruct (plot_genomes_cases (genomeList neat) 0 (zeros nextInnovID (popSize neat)))
    as [[data H]|H]; [|exact H].
  destruct (@plot_genomes_Done _ _ _ _ _ _ (zeros_shaped nextInnovID (popSize neat)) H)
    as [_ [_ Hall]].
  destruct (Hall _ _ Eg) as [Hin _]. destruct (Hin _ Hc). simpl in *. lia.
Qed.

Lemma speciate_data_out_of_bounds_witness :
  speciate_data (Ex2.populated [Ex.narrow; Ex.wide] [[]; []]) 4 = OutOfBounds.
Proof.
  apply (@speciate_data_out_of_bounds unit
           (Ex2.populated [Ex.narrow; Ex.wide] [[]; []]) 4 0 Ex.narrow
           (mkConnectionGene 4 3 0 3 true)).
  - reflexivity.
  - simpl. auto.
  - left. simpl. lia.
Defined.

(** ** The new species *)

Lemma clear_species_Done (n : nat) (pre rest : list (list Genome)) :
  n <= length rest ->
  clear_species n (length pre) (pre ++ rest)
  = Done (pre ++ repeat [] n ++ skipn n rest).
Proof.
  revert pre rest; induction n as [|n IH]; intros pre rest Hn; simpl.
  - reflexivity.
  - destruct rest as [|sp rest]; [simpl in Hn; lia|]. simpl in Hn.
    rewrite (vec_set_middle pre rest [] sp). simpl.
    specialize (IH (pre ++ [[]]) rest ltac:(lia)).
    rewrite length_app, Nat.add_1_r in IH. rewrite <- app_assoc in IH.
    simpl in IH. rewrite IH. rewrite <- app_assoc. reflexivity.
Qed.

Lemma assign_species_Done (assignments : list nat) (i : nat)
    (genomes : list Genome) (speciesList speciesList' : list (list Genome)) :
  assign_species assignments i genomes speciesList = Done speciesList' ->
  length speciesList' = length speciesList /\
  length assignments <= length genomes - i /\
  Forall (fun a => a < length speciesList) assignments /\
  forall a species, nth_error speciesList a = Some species ->
    nth_error speciesList' a
    = Some (species ++ members_of a assignments (skipn i genomes)).
Proof.
  revert i speciesList; induction assignments as [|x rest IH];
    intros i speciesList H; simpl in H.
  - injection H as <-. split; [reflexivity|]. split; [simpl; lia|].
    split; [constructor|]. intros a species E. simpl.
    rewrite app_nil_r. exact E.
  - destruct (vec_get genomes i) as [g| | |] eqn:Eg; simpl in H; try discriminate.
    destruct (vec_get speciesList x) as [sp| | |] eqn:Esp; simpl in H;
      try discriminate.
    destruct (vec_set speciesList x (sp ++ [g])) as [sl1| | |] eqn:Eset;
      simpl in H; try discriminate.
    apply vec_get_Done in Eg. apply vec_get_Done in Esp.
    destruct (vec_set_nth_error _ _ _ Eset) as [Hx Hcells].
    destruct (IH _ _ H) as [Hlen [Hcount [Hall Hmem]]].
    pose proof (vec_set_length _ _ _ Eset) as Hl1.
    assert (Hi : i < length genomes) by (apply nth_error_Some; congruence).
    split; [congruence|]. split; [simpl; lia|]. split.
    + constructor; [exact Hx|]. rewrite Hl1 in Hall. exact Hall.
    + intros a species E.
      assert (Hsk : skipn i genomes = g :: skipn (S i) genomes).
      { clear -Eg. revert i Eg; induction genomes as [|y l IHl]; intros [|i] E;
          simpl in *; try discriminate.
        - injection E as ->. reflexivity.
        - apply IHl. exact E. }
      rewrite Hsk. simpl.
      destruct (x =? a) eqn:C.
      * apply Nat.eqb_eq in C. subst a. rewrite Esp in E. injection E as <-.
        rewrite (Hmem x (sp ++ [g])).
        -- rewrite <- app_assoc. reflexivity.
        -- rewrite Hcells, Nat.eqb_refl. reflexivity.
      * apply Hmem. rewrite Hcells.
        destruct (a =? x) eqn:C'; [|exact E].
        apply Nat.eqb_eq in C'. apply Nat.eqb_neq in C. lia.
Qed.

Lemma members_of_cons_total (x : nat) (rest : list nat) (g : Genome)
    (genomes : list Genome) (m s : nat) :
  length (concat (map (fun a => members_of a (x :: rest) (g :: genomes)) (seq s m)))
  = (if (s <=? x) && (x <? s + m) then 1 else 0)
    + length (concat (map (fun a => members_of a rest genomes) (seq s m))).
Proof.
  revert s; induction m as [|m IHm]; intros s.
  - simpl. destruct (Nat.leb_spec s x); destruct (Nat.ltb_spec x (s + 0));
      simpl; lia.
  - cbn [seq map concat]. rewrite !length_app, IHm. cbn [members_of].
    destruct (Nat.eqb_spec x s); destruct (Nat.leb_spec s x);
      destruct (Nat.leb_spec (S s) x); destruct (Nat.ltb_spec x (s + S m));
      destruct (Nat.ltb_spec x (S s + m)); simpl; lia.
Qed.

Lemma members_of_total (n : nat) (assignments : list nat) (genomes : list Genome) :
  length assignments <= length genomes ->
  Forall (fun a => a < n) assignments ->
  length (concat (map (fun a => members_of a assignments genomes) (seq 0 n)))
  = length assignments.
Proof.
  revert genomes; induction assignments as [|x rest IH]; intros genomes Hl Hall.
  - clear. generalize 0 at 1. induction n as [|n IHn]; intros s; simpl;
      [reflexivity|apply IHn].
  - destruct genomes as [|g genomes]; [simpl in Hl; lia|]. simpl in Hl.
    inversion Hall as [|y l Hx Hrest]; subst.
    rewrite members_of_cons_total, (IH genomes ltac:(lia) Hrest).
    destruct (Nat.leb_spec 0 x); destruct (Nat.ltb_spec x (0 + n)); simpl; lia.
Qed.

Section SpeciateFacts.

Variable Centroids : Type.
Variable Cluster : list (list float) -> nat -> bool -> Centroids -> list nat * Centroids.
Variable TaskType : Type.

(** X17.  Whenever [Speciate] returns on an engine that keeps [numSpecies]
    species, the population is unchanged, there are still [numSpecies]
    species, every assignment of the clustering names one of them and there
    are no more assignments than genomes, and species [a] holds exactly the
    genomes assigned to [a], in population order: a genome with an
    assignment is in one species only, the old members are gone. *)
Theorem Speciate_groups_by_assignment (neat neat' : NEAT TaskType)
    (nextInnovID : nat) (init : bool) (centroids centroids' : Centroids) :
  length (speciesList neat) = numSpecies neat ->
  Speciate Cluster neat nextInnovID init centroids = Done (neat', centroids') ->
  exists data,
    speciate_data neat nextInnovID = Done data /\
    let assignments := fst (Cluster data (numSpecies neat) (negb init) centroids) in
    centroids' = snd (Cluster data (numSpecies neat) (negb init) centroids) /\
    genomeList neat' = genomeList neat /\
    length (speciesList neat') = numSpecies neat /\
    length assignments <= length (genomeList neat) /\
    Forall (fun a => a < numSpecies neat) assignments /\
    (forall a, a < numSpecies neat ->
       nth_error (speciesList neat') a
       = Some (members_of a assignments (genomeList neat))) /\
    length (concat (speciesList neat')) = length assignments.
Proof.
  intros Hn H. unfold Speciate in H.
  destruct (speciate_data neat nextInnovID) as [data| | |] eqn:Ed; simpl in H;
    try discriminate.
  exists data. split; [reflexivity|].
  destruct (Cluster data (numSpecies neat) (negb init) centroids)
    as [assignments cents] eqn:Ec. simpl.
  pose proof (@clear_species_Done (numSpecies neat) [] (speciesList neat)
                ltac:(lia)) as Hclear.
  simpl in Hclear. rewrite Hclear in H. simpl in H.
  rewrite <- Hn in H at 2. rewrite skipn_all, app_nil_r in H.
  destruct (assign_species assignments 0 (genomeList neat)
              (repeat [] (numSpecies neat))) as [sl| | |] eqn:Ea; simpl in H;
    try discriminate.
  injection H as <- <-.
  destruct (assign_species_Done _ _ _ _ Ea) as [Hlen [Hcount [Hall Hmem]]].
  rewrite repeat_length in Hlen, Hall. rewrite Nat.sub_0_r in Hcount.
  simpl in Hmem.
  assert (Hsp : forall a, a < numSpecies neat ->
            nth_error sl a = Some (members_of a assignments (genomeList neat))).
  { intros a Ha. rewrite (Hmem a []); [reflexivity|].
    apply nth_error_repeat. exact Ha. }
  split; [reflexivity|]. split; [destruct neat; reflexivity|].
  split; [destruct neat; exact Hlen|]. split; [exact Hcount|].
  split; [exact Hall|]. split; [destruct neat; exact Hsp|].
  replace (speciesList (set_speciesList sl neat)) with sl by (destruct neat; reflexivity).
  rewrite <- (@members_of_total (numSpecies neat) assignments (genomeList neat) Hcount Hall).
  f_equal. f_equal.
  apply nth_error_ext. intros a.
  destruct (Nat.lt_ge_cases a (numSpecies neat)) as [Ha|Ha].
  - rewrite Hsp by exact Ha.
    rewrite nth_error_map, nth_error_seq.
    replace (a <? numSpecies neat) with true by (symmetry; apply Nat.ltb_lt; exact Ha).
    reflexivity.
  - transitivity (@None (list Genome)).
    + apply nth_error_None. lia.
    + symmetry. apply nth_error_None. rewrite length_map, length_seq. exact Ha.
Qed.

End SpeciateFacts.

Lemma Speciate_groups_by_assignment_witness :
  exists data,
    speciate_data (Ex2.populated [Ex.narrow; Ex.wide; Ex.narrow] [[Ex.wide]; []]) 5
    = Done data /\
    let assignments := fst (Ex2.round_robin data 2 (negb true) tt) in
    tt = snd (Ex2.round_robin data 2 (negb true) tt) /\
    genomeList (set_speciesList [[Ex.narrow; Ex.narrow]; [Ex.wide]]
                  (Ex2.populated [Ex.narrow; Ex.wide; Ex.narrow] [[Ex.wide]; []]))
    = [Ex.narrow; Ex.wide; Ex.narrow] /\
    length (speciesList (set_speciesList [[Ex.narrow; Ex.narrow]; [Ex.wide]]
                  (Ex2.populated [Ex.narrow; Ex.wide; Ex.narrow] [[Ex.wide]; []])))
    = 2 /\
    length assignments <= 3 /\
    Forall (fun a => a < 2) assignments /\
    (forall a, a < 2 ->
       nth_error (speciesList (set_speciesList [[Ex.narrow; Ex.narrow]; [Ex.wide]]
                  (Ex2.populated [Ex.narrow; Ex.wide; Ex.narrow] [[Ex.wide]; []]))) a
       = Some (members_of a assignments [Ex.narrow; Ex.wide; Ex.narrow])) /\
    length (concat (speciesList (set_speciesList [[Ex.narrow; Ex.narrow]; [Ex.wide]]
                  (Ex2.populated [Ex.narrow; Ex.wide; Ex.narrow] [[Ex.wide]; []]))))
    = length assignments.
Proof.
  apply (@Speciate_groups_by_assignment unit Ex2.round_robin unit
           (Ex2.populated [Ex.narrow; Ex.wide; Ex.narrow] [[Ex.wide]; []])
           (set_speciesList [[Ex.narrow; Ex.narrow]; [Ex.wide]]
              (Ex2.populated [Ex.narrow; Ex.wide; Ex.narrow] [[Ex.wide]; []]))
           5 true tt tt).
  - reflexivity.
  - vm_compute. reflexivity.
Defined.

(** * The Acrobat environment: bounded velocities *)

Lemma not_ltb_leb (a b : float) :
  (a =? a)%float = true -> (b =? b)%float = true ->
  (a <? b)%float = false -> (b <=? a)%float = true.
Proof.
  rewrite !FloatAxioms.eqb_spec, FloatAxioms.ltb_spec, FloatAxioms.leb_spec.
  unfold SFeqb, SFltb, SFleb.
  destruct (SFcompare (Prim2SF a) (Prim2SF b)) as [c|] eqn:E.
  - intros _ _ H. rewrite (SFcompare_antisym _ _ E).
    destruct c; try discriminate; reflexivity.
  - destruct (Prim2SF a) as [sa|sa| |sa ma ea], (Prim2SF b) as [sb|sb| |sb mb eb];
      simpl in *; try discriminate; sf_cases.
Qed.

Lemma leb_refl (a : float) : (a =? a)%float = true -> (a <=? a)%float = true.
Proof.
  rewrite FloatAxioms.eqb_spec, FloatAxioms.leb_spec. unfold SFeqb, SFleb.
  destruct (SFcompare (Prim2SF a) (Prim2SF a)) as [[ | | ]|]; try discriminate;
    reflexivity.
Qed.

Lemma leb_number (a b : float) :
  (a <=? b)%float = true -> (a =? a)%float = true /\ (b =? b)%float = true.
Proof.
  rewrite !FloatAxioms.eqb_spec, FloatAxioms.leb_spec. unfold SFeqb, SFleb.
  destruct (Prim2SF a) as [sa|sa| |sa ma ea], (Prim2SF b) as [sb|sb| |sb mb eb];
    simpl; try discriminate; intros _; sf_cases;
    rewrite ?Z.compare_refl, ?Pos.compare_cont_refl; simpl; auto.
Qed.

Lemma opp_leb_nonneg (m : float) :
  (0 <=? m)%float = true -> (- m <=? m)%float = true.
Proof.
  rewrite !FloatAxioms.leb_spec, FloatAxioms.opp_spec. unfold SFleb.
  change (Prim2SF 0) with (S754_zero false).
  destruct (Prim2SF m) as [sm|sm| |sm mm em]; simpl; try discriminate;
    destruct sm; simpl; try discriminate; reflexivity.
Qed.

(** X18.  The angular velocities of the next state are bounded: for a
    velocity that is a number and a bound [maxVel] that is not negative, the
    velocity [Sample] stores lies between [-maxVel] and [maxVel], and it is
    the integrated velocity itself when that already lies between them. *)
Theorem bounded_velocity_in_range (velocity maxVel : float) :
  (velocity =? velocity)%float = true ->
  (0 <=? maxVel)%float = true ->
  (- maxVel <=? Acrobat.bounded_velocity velocity maxVel)%float = true /\
  (Acrobat.bounded_velocity velocity maxVel <=? maxVel)%float = true /\
  ((- maxVel <=? velocity)%float = true -> (velocity <=? maxVel)%float = true ->
   Acrobat.bounded_velocity velocity maxVel = velocity).
Proof.
  intros Hv Hm. pose proof (opp_leb_nonneg Hm) as Hom.
  destruct (leb_number Hom) as [Hno Hnm].
  unfold Acrobat.bounded_velocity, Acrobat.std_min, Acrobat.std_max.
  destruct (velocity <? - maxVel)%float eqn:C1.
  - rewrite (leb_not_ltb Hom).
    split; [apply leb_refl; exact Hno|]. split; [exact Hom|].
    intros H _. rewrite (leb_not_ltb H) in C1. discriminate.
  - destruct (maxVel <? velocity)%float eqn:C2.
    + split; [exact Hom|]. split; [apply leb_refl; exact Hnm|].
      intros _ H. rewrite (leb_not_ltb H) in C2. discriminate.
    + split; [apply not_ltb_leb; assumption|].
      split; [apply not_ltb_leb; assumption|]. reflexivity.
Qed.

Lemma bounded_velocity_in_range_witness :
  (- 4 <=? Acrobat.bounded_velocity 9 4)%float = true /\
  (Acrobat.bounded_velocity 9 4 <=? 4)%float = true /\
  ((- 4 <=? 9)%float = true -> (9 <=? 4)%float = true ->
   Acrobat.bounded_velocity 9 4 = 9%float).
Proof.
  apply (@bounded_velocity_in_range 9%float 4%float); reflexivity.
Defined.

(** X19.  A velocity that is not a number passes the bounds unchanged:
    both comparisons of [std::max] and [std::min] are false on it. *)
Theorem bounded_velocity_nan (maxVel : float) :
  Acrobat.bounded_velocity nan maxVel = nan.
Proof.
  unfold Acrobat.bounded_velocity, Acrobat.std_min, Acrobat.std_max.
  rewrite ltb_nan_l, ltb_nan_r. reflexivity.
Qed.
